(** * Jinteia Loot Analyzer: log tailing and sliding-window statistics

    A shallow embedding of the core of [Jinteia-Loot-Analyzer-FREE.py]:
    the line parser ([LOG_LINE_RE], [parse_datetime_from_log],
    [parse_log_line]), the sliding window of [LiveMonitorWorker]
    ([add_event]), the statistics ([compute_stats_from_window]) and the
    tail loop ([run]); then the offline path ([iter_events_from_file],
    [stats_from_events]) and the window of [LootMonitorApp], kept as the
    values its widgets hold.

    Modelling conventions.
    - A Python [str] is kept as the [string] of its UTF-8 encoding; [re],
      [strptime], [int] and [strip] work on its code points ([chars]), with
      the decimal digits and the white space of Unicode 14.0 (CPython 3.11).
      What the program writes (numbers, times of day) is ASCII.
    - Python exceptions are the [Raise] branch of [result].
    - A [datetime] is the record of its calendar fields; comparison and
      subtraction go through its position on the axis of seconds, computed
      from the proleptic Gregorian ordinal as [datetime] itself does (the
      range limits of [datetime] and [timedelta] are not modelled).
    - [float] values ([hours], [minutes], the rates before rounding, the
      clock) are kept as exact rationals; dividing by zero raises
      [ZeroDivisionError] as in Python. The binary64 arithmetic of the
      rates is given apart, in [Binary64], and run on the worked scenario. *)

From Stdlib Require Import List NArith ZArith QArith Ascii String Bool Lia.
From Stdlib Require Import ZifyN ZifyNat ZifyBool.
From Stdlib Require Import Sorted Permutation.
From Stdlib Require Import Floats.SpecFloat.
From Stdlib Require Import Lqa.
Import ListNotations.

Local Open Scope Z_scope.

(** ** Python results: a value or an uncaught exception *)

Inductive exn : Type :=
| ValueError
| OSError (msg : string)
| ZeroDivisionError
| OverflowError.

Inductive result (A : Type) : Type :=
| Ok (a : A)
| Raise (e : exn).

Arguments Ok {A} a.
Arguments Raise {A} e.

Definition bind {A B : Type} (m : result A) (k : A -> result B) : result B :=
  match m with
  | Ok a => k a
  | Raise e => Raise e
  end.

Notation "x <- m ;; k" := (bind m (fun x => k))
  (at level 61, m at next level, right associativity).

(** ** Text: code points and their UTF-8 encoding *)

Definition code : Type := N.

(** A Python [str], as the sequence of its code points. *)
Definition str : Type := list code.

Module Utf8.

Local Open Scope N_scope.

Definition continuation (b : N) : bool := (128 <=? b) && (b <=? 191).

Definition lead2 (b0 b1 : N) : bool :=
  (194 <=? b0) && (b0 <=? 223) && continuation b1.

Definition lead3 (b0 b1 b2 : N) : bool :=
  ((b0 =? 224) && (160 <=? b1) && (b1 <=? 191)
   || (225 <=? b0) && (b0 <=? 236) && continuation b1
   || (b0 =? 237) && (128 <=? b1) && (b1 <=? 159)
   || (238 <=? b0) && (b0 <=? 239) && continuation b1)
  && continuation b2.

Definition lead4 (b0 b1 b2 b3 : N) : bool :=
  ((b0 =? 240) && (144 <=? b1) && (b1 <=? 191)
   || (241 <=? b0) && (b0 <=? 243) && continuation b1
   || (b0 =? 244) && (128 <=? b1) && (b1 <=? 143))
  && continuation b2 && continuation b3.

(** The code points of a sequence of bytes. A byte that does not start a
    well-formed sequence is dropped, which is what [errors="ignore"] does
    when the log file is read. *)
Fixpoint decode_bytes (bs : list N) : str :=
  match bs with
  | [] => []
  | b0 :: r0 =>
      if b0 <? 128 then b0 :: decode_bytes r0
      else
        match r0 with
        | [] => []
        | b1 :: r1 =>
            if lead2 b0 b1
            then ((b0 - 192) * 64 + (b1 - 128)) :: decode_bytes r1
            else
              match r1 with
              | [] => decode_bytes r0
              | b2 :: r2 =>
                  if lead3 b0 b1 b2
                  then ((b0 - 224) * 4096 + (b1 - 128) * 64 + (b2 - 128))
                       :: decode_bytes r2
                  else
                    match r2 with
                    | [] => decode_bytes r0
                    | b3 :: r3 =>
                        if lead4 b0 b1 b2 b3
                        then ((b0 - 240) * 262144 + (b1 - 128) * 4096
                              + (b2 - 128) * 64 + (b3 - 128))
                             :: decode_bytes r3
                        else decode_bytes r0
                    end
              end
        end
  end.

Definition encode_code (c : code) : list N :=
  if c <? 128 then [c]
  else if c <? 2048 then [192 + c / 64; 128 + c mod 64]
  else if c <? 65536
  then [224 + c / 4096; 128 + (c / 64) mod 64; 128 + c mod 64]
  else [240 + c / 262144; 128 + (c / 4096) mod 64; 128 + (c / 64) mod 64;
        128 + c mod 64].

Definition decode (s : string) : str :=
  decode_bytes (map N_of_ascii (list_ascii_of_string s)).

Definition encode (t : str) : string :=
  string_of_list_ascii (map ascii_of_N (flat_map encode_code t)).

(** The code points that stand for a character: not a surrogate, and not
    beyond U+10FFFF. *)
Definition scalar (c : code) : bool :=
  (c <? 55296) || (57344 <=? c) && (c <? 1114112).

End Utf8.

(** The code points of a text. *)
Definition chars (s : string) : str := Utf8.decode s.

(** The code points of a text written in ASCII. *)
Definition codes (l : list ascii) : str := map N_of_ascii l.

(** The characters [0] of the decimal digits of Unicode 14.0 (category Nd);
    the digits 1 to 9 of each follow it. *)
Definition decimal_zeros : list code :=
  [48; 1632; 1776; 1984; 2406; 2534; 2662; 2790; 2918; 3046; 3174; 3302;
   3430; 3558; 3664; 3792; 3872; 4160; 4240; 6112; 6160; 6470; 6608; 6784;
   6800; 6992; 7088; 7232; 7248; 42528; 43216; 43264; 43472; 43504; 43600;
   44016; 65296; 66720; 68912; 69734; 69872; 69942; 70096; 70384; 70736;
   70864; 71248; 71360; 71472; 71904; 72016; 72784; 73040; 73120; 92768;
   92864; 93008; 120782; 120792; 120802; 120812; 120822; 123200; 123632;
   125264; 130032]%N.

(** [unicodedata.decimal]: the value of a decimal digit. *)
Definition decimal (c : code) : option Z :=
  option_map (fun z => Z.of_N (c - z))
    (find (fun z => (z <=? c) && (c <? z + 10))%N decimal_zeros).

(** [\d] in a [str] pattern, [str.isdecimal] on one character. *)
Definition is_decimal (c : code) : bool :=
  match decimal c with Some _ => true | None => false end.

Definition decimal_val (c : code) : Z :=
  match decimal c with Some v => v | None => 0 end.

(** [\s] in a [str] pattern, [str.isspace] on one character. *)
Definition is_space (c : code) : bool :=
  ((9 <=? c) && (c <=? 13) || (28 <=? c) && (c <=? 32)
   || (c =? 133) || (c =? 160) || (c =? 5760)
   || (8192 <=? c) && (c <=? 8202)
   || (c =? 8232) || (c =? 8233) || (c =? 8239) || (c =? 8287)
   || (c =? 12288))%N.

(** An ASCII digit, as [str(n)], [f"{n:,}"] and [strftime] write them. *)
Definition is_digit (a : ascii) : bool :=
  let n := nat_of_ascii a in (48 <=? n)%nat && (n <=? 57)%nat.

(** ** The fragment of [re] used by [LOG_LINE_RE] *)

Module Re.

(** One-character items. *)
Inductive cclass : Type :=
| Chr (c : code)         (* a literal or escaped character *)
| Digit                  (* \d *)
| Dot.                   (* . without DOTALL: anything but a newline *)

Definition newline : code := 10%N.

Definition cmatch (c : cclass) (a : code) : bool :=
  match c with
  | Chr x => N.eqb x a
  | Digit => is_decimal a
  | Dot => negb (N.eqb a newline)
  end.

Inductive regex : Type :=
| One (c : cclass)                 (* c *)
| Times (n : nat) (c : cclass)     (* c{n} *)
| Plus (c : cclass)                (* c+   greedy *)
| PlusLazy (c : cclass)            (* c+?  lazy *)
| Cat (r1 r2 : regex)              (* r1 r2 *)
| Group (r : regex).               (* ( r ) *)

(** The text consumed between input [s] and its suffix [s']. *)
Definition consumed (s s' : str) : str :=
  firstn (List.length s - List.length s') s.

(** Exactly [n] characters of class [c], then the continuation. *)
Fixpoint times {R : Type} (c : cclass) (n : nat) (k : str -> option R)
    (s : str) : option R :=
  match n with
  | O => k s
  | S n' =>
      match s with
      | a :: s' => if cmatch c a then times c n' k s' else None
      | [] => None
      end
  end.

(** [c+]: take as many as possible, give back one at a time. *)
Fixpoint plus_greedy {R : Type} (c : cclass) (k : str -> option R)
    (s : str) : option R :=
  match s with
  | a :: s' =>
      if cmatch c a then
        match plus_greedy c k s' with
        | Some r => Some r
        | None => k s'
        end
      else None
  | [] => None
  end.

(** [c+?]: take one, try the rest of the pattern, take one more on failure. *)
Fixpoint plus_lazy {R : Type} (c : cclass) (k : str -> option R)
    (s : str) : option R :=
  match s with
  | a :: s' =>
      if cmatch c a then
        match k s' with
        | Some r => Some r
        | None => plus_lazy c k s'
        end
      else None
  | [] => None
  end.

(** Backtracking matcher in continuation-passing style; [g] collects the
    groups closed so far, in order. *)
Fixpoint rmatch {R : Type} (r : regex) (k : str -> list str -> option R)
    (s : str) (g : list str) : option R :=
  match r with
  | One c => times c 1 (fun s' => k s' g) s
  | Times n c => times c n (fun s' => k s' g) s
  | Plus c => plus_greedy c (fun s' => k s' g) s
  | PlusLazy c => plus_lazy c (fun s' => k s' g) s
  | Cat r1 r2 => rmatch r1 (rmatch r2 k) s g
  | Group r1 => rmatch r1 (fun s' g' => k s' (g' ++ [consumed s s'])) s g
  end.

(** [pattern.match]: anchored at the start of [s], not at its end. *)
Definition match_here (r : regex) (s : str) : option (list str) :=
  rmatch r (fun _ g => Some g) s [].

(** [pattern.search]: the first start position with a match wins. *)
Fixpoint search (r : regex) (s : str) : option (list str) :=
  match match_here r s with
  | Some g => Some g
  | None =>
      match s with
      | _ :: s' => search r s'
      | [] => None
      end
  end.

(** A literal run of characters. *)
Fixpoint lit (cs : str) : regex :=
  match cs with
  | [] => Times 0 Dot
  | [c] => One (Chr c)
  | c :: cs' => Cat (One (Chr c)) (lit cs')
  end.

End Re.

Import Re.

Notation "r1 ~ r2" := (Cat r1 r2) (at level 60, right associativity).

Definition L (s : string) : regex := lit (chars s).

(** [\[(\d{2}/\d{2}/\d{2})\] \[(\d{2}:\d{2}:\d{2})\]: You receive (\d+) (.+?)\.] *)
Definition LOG_LINE_RE : regex :=
  L "[" ~ Group (Times 2 Digit ~ L "/" ~ Times 2 Digit ~ L "/" ~ Times 2 Digit)
  ~ L "] ["
  ~ Group (Times 2 Digit ~ L ":" ~ Times 2 Digit ~ L ":" ~ Times 2 Digit)
  ~ L "]: You receive " ~ Group (Plus Digit) ~ L " " ~ Group (PlusLazy Dot)
  ~ L ".".

(** ** [datetime]: the part of the standard library the program uses *)

Module DT.

Record datetime : Type := mkdt
  { year : Z; month : Z; day : Z; hour : Z; minute : Z; second : Z }.

Definition is_leap (y : Z) : bool :=
  (y mod 4 =? 0) && (negb (y mod 100 =? 0) || (y mod 400 =? 0)).

Definition days_in_month (y m : Z) : Z :=
  if (m =? 2) && is_leap y then 29
  else nth (Z.to_nat m) [0; 31; 28; 31; 30; 31; 30; 31; 31; 30; 31; 30; 31] 0.

Definition days_before_year (y : Z) : Z :=
  let p := y - 1 in p * 365 + p / 4 - p / 100 + p / 400.

Definition days_before_month (y m : Z) : Z :=
  nth (Z.to_nat m) [0; 0; 31; 59; 90; 120; 151; 181; 212; 243; 273; 304; 334] 0
  + (if (2 <? m) && is_leap y then 1 else 0).

(** [date.toordinal]: 0001-01-01 is day 1. *)
Definition toordinal (d : datetime) : Z :=
  days_before_year (year d) + days_before_month (year d) (month d) + day d.

(** The position of [d] on the axis of seconds (ordinal day, then time of
    day); [a - b] and [a < b] on naive datetimes are the difference and the
    comparison of these positions. *)
Definition to_seconds (d : datetime) : Z :=
  toordinal d * 86400 + hour d * 3600 + minute d * 60 + second d.

(** The checks of the [datetime] constructor. *)
Definition valid (d : datetime) : bool :=
  (1 <=? year d) && (year d <=? 9999)
  && (1 <=? month d) && (month d <=? 12)
  && (1 <=? day d) && (day d <=? days_in_month (year d) (month d))
  && (0 <=? hour d) && (hour d <=? 23)
  && (0 <=? minute d) && (minute d <=? 59)
  && (0 <=? second d) && (second d <=? 59).

Definition datetime_new (y m d H M S : Z) : result datetime :=
  let x := mkdt y m d H M S in
  if valid x then Ok x else Raise ValueError.

Definition digit_val (a : ascii) : Z := Z.of_nat (nat_of_ascii a) - 48.

Definition two_digits (a b : ascii) : Z := 10 * digit_val a + digit_val b.

(** [int] of two decimal digits. *)
Definition two_decimals (a b : code) : Z := 10 * decimal_val a + decimal_val b.

(** The century rule of [%y]. *)
Definition pivot_year (yy : Z) : Z :=
  if yy <=? 68 then 2000 + yy else 1900 + yy.

(** One of the characters [lo] to [hi], both ASCII. *)
Definition between (lo hi : ascii) (c : code) : bool :=
  (N_of_ascii lo <=? c)%N && (c <=? N_of_ascii hi)%N.

(** The patterns of the directives on two characters: [%d] is
    [3[0-1]|[1-2]\d|0[1-9]], [%m] is [1[0-2]|0[1-9]], [%y] is [\d\d], [%H] is
    [2[0-3]|[0-1]\d], [%M] is [[0-5]\d] and [%S] is [6[0-1]|[0-5]\d]. *)
Definition day_field (a b : code) : bool :=
  between "3" "3" a && between "0" "1" b
  || between "1" "2" a && is_decimal b
  || between "0" "0" a && between "1" "9" b.

Definition month_field (a b : code) : bool :=
  between "1" "1" a && between "0" "2" b
  || between "0" "0" a && between "1" "9" b.

Definition year_field (a b : code) : bool := is_decimal a && is_decimal b.

Definition hour_field (a b : code) : bool :=
  between "2" "2" a && between "0" "3" b
  || between "0" "1" a && is_decimal b.

Definition minute_field (a b : code) : bool :=
  between "0" "5" a && is_decimal b.

Definition second_field (a b : code) : bool :=
  between "6" "6" a && between "0" "1" b
  || between "0" "5" a && is_decimal b.

(** [datetime.strptime(s, "%d/%m/%y %H:%M:%S")] on a text of seventeen
    characters with [/] and [:] where [dd/dd/dd dd:dd:dd] has them, the
    layout that groups 1 and 2 of [LOG_LINE_RE] always give (other layouts,
    some of which Python accepts, are not reached by the program and are
    reported as [ValueError] here). The blank of the format stands for
    [\s+]. Each directive matches its two characters or the whole text is
    refused; the constructor then checks the calendar and the range of the
    seconds. *)
Definition strptime_dmy_HMS (s : str) : result datetime :=
  match s with
  | [d1; d2; c1; m1; m2; c2; y1; y2; sp; h1; h2; c3; i1; i2; c4; s1; s2] =>
      if forallb (N.eqb 47) [c1; c2] && is_space sp
         && forallb (N.eqb 58) [c3; c4]
         && day_field d1 d2 && month_field m1 m2 && year_field y1 y2
         && hour_field h1 h2 && minute_field i1 i2 && second_field s1 s2
      then
        datetime_new (pivot_year (two_decimals y1 y2))
          (two_decimals m1 m2) (two_decimals d1 d2)
          (two_decimals h1 h2) (two_decimals i1 i2) (two_decimals s1 s2)
      else Raise ValueError
  | _ => Raise ValueError
  end.

End DT.

Import DT.

(** The number written by ASCII digits. *)
Definition int_of_digits (s : list ascii) : Z :=
  fold_left (fun acc a => 10 * acc + digit_val a) s 0.

(** The number written by decimal digits. *)
Definition int_of_decimals (s : str) : Z :=
  fold_left (fun acc a => 10 * acc + decimal_val a) s 0.

(** [sys.int_info.default_max_str_digits] *)
Definition max_str_digits : nat := 4300.

(** [int(s)] on a text of decimal digits, the only texts group 3 of
    [LOG_LINE_RE] yields: the value is unbounded, the number of digits is
    not. *)
Definition py_int (s : str) : result Z :=
  match s with
  | [] => Raise ValueError
  | _ =>
      if forallb is_decimal s && (List.length s <=? max_str_digits)%nat
      then Ok (int_of_decimals s)
      else Raise ValueError
  end.

(** ** Parsing and data structures *)

Record LootEvent : Type := mkLootEvent
  { ts : datetime; quantity : Z; item : string }.

Definition is_yang (ev : LootEvent) : bool := String.eqb (item ev) "Yang".

Definition parse_datetime_from_log (date_str time_str : str) : result datetime :=
  strptime_dmy_HMS (date_str ++ chars " " ++ time_str).

Definition parse_log_line (line : string) : result (option LootEvent) :=
  match search LOG_LINE_RE (chars line) with
  | None => Ok None
  | Some [date_str; time_str; qty_str; item] =>
      ts <- parse_datetime_from_log date_str time_str ;;
      quantity <- py_int qty_str ;;
      Ok (Some (mkLootEvent ts quantity (Utf8.encode item)))
  | Some _ => Raise ValueError   (* unpacking another number of groups *)
  end.

(** ** Numbers *)

(** [a / b] on floats, kept exact. *)
Definition py_truediv (a b : Q) : result Q :=
  if Qeq_bool b 0 then Raise ZeroDivisionError else Ok (a / b)%Q.

(** [round(x)]: the nearest integer, ties to the even one. *)
Definition py_round (x : Q) : Z :=
  let n := Qnum x in
  let d := Z.pos (Qden x) in
  let fl := n / d in
  let r2 := 2 * (n mod d) in
  if r2 <? d then fl
  else if d <? r2 then fl + 1
  else if Z.even fl then fl else fl + 1.

(** The same arithmetic in binary64, as the interpreter runs it. *)
Module Binary64.

Definition prec : Z := 53.
Definition emax : Z := 1024.

(** [float(n)] of an [int]: the nearest double, ties to even. *)
Definition of_int (n : Z) : result spec_float :=
  match binary_normalize prec emax n 0 false with
  | S754_infinity _ => Raise OverflowError
  | f => Ok f
  end.

Definition truediv (a b : spec_float) : result spec_float :=
  match b with
  | S754_zero _ => Raise ZeroDivisionError
  | _ => Ok (SFdiv prec emax a b)
  end.

(** [round(x)] of a [float]: the nearest integer, ties to the even one. *)
Definition round (x : spec_float) : result Z :=
  match x with
  | S754_zero _ => Ok 0
  | S754_infinity _ => Raise OverflowError
  | S754_nan => Raise ValueError
  | S754_finite s m e =>
      let v :=
        if 0 <=? e then Z.pos m * 2 ^ e
        else
          let d := 2 ^ (- e) in
          let fl := Z.pos m / d in
          let r2 := 2 * (Z.pos m mod d) in
          if r2 <? d then fl
          else if d <? r2 then fl + 1
          else if Z.even fl then fl else fl + 1 in
      Ok (if s then - v else v)
  end.

(** [int(round(q / (elapsed / unit_)))] with [unit_] 3600.0 or 60.0. *)
Definition rate (q elapsed unit_ : Z) : result Z :=
  fq <- of_int q ;;
  fe <- of_int elapsed ;;
  fu <- of_int unit_ ;;
  h <- truediv fe fu ;;
  r <- truediv fq h ;;
  round r.

(** A literal such as [3600.0]. *)
Definition double (n : Z) : spec_float := binary_normalize prec emax n 0 false.

(** [int(round(q / h))] for an [int] [q] and a [float] [h]. *)
Definition per (q : Z) (h : spec_float) : result Z :=
  fq <- of_int q ;;
  r <- truediv fq h ;;
  round r.

(** The number a double stands for: [m * 2 ^ e] with the sign. *)
Definition value (x : spec_float) : Q :=
  match x with
  | S754_finite s m e =>
      let z := if s then Z.neg m else Z.pos m in
      if 0 <=? e then inject_Z (z * 2 ^ e) else z # Z.to_pos (2 ^ (- e))
  | _ => 0%Q
  end.

(** [x >= n] for a [float] [x] and an [int] [n]: the comparison is exact. *)
Definition ge_int (x : spec_float) (n : Z) : bool :=
  match x with
  | S754_nan => false
  | S754_infinity s => negb s
  | S754_zero _ => n <=? 0
  | S754_finite s m e =>
      let z := if s then Z.neg m else Z.pos m in
      if 0 <=? e then n <=? z * 2 ^ e else n * 2 ^ (- e) <=? z
  end.

(** [a - b] on floats. *)
Definition sub (a b : spec_float) : spec_float := SFsub prec emax a b.

End Binary64.

(** A double in the normal range: a mantissa of fifty-three binary digits,
    the sign [s], the exponent between [lo] and [hi]. *)
Definition normal (s : bool) (lo hi : Z) (x : spec_float) : Prop :=
  exists m e, x = S754_finite s m e /\ Z.pos (digits2_pos m) = 53 /\
              lo <= e <= hi.

(** ** The live monitor worker *)

Record LiveMonitorWorker : Type := mkWorker
  { window_minutes : Z;
    refresh_secs : Z;
    from_start : bool;
    window : list LootEvent }.

Definition set_window (self : LiveMonitorWorker) (w : list LootEvent)
  : LiveMonitorWorker :=
  mkWorker (window_minutes self) (refresh_secs self) (from_start self) w.

(** [__init__]: the window starts as an empty deque. *)
Definition new_worker (window_minutes refresh_secs : Z) (from_start : bool)
  : LiveMonitorWorker :=
  mkWorker window_minutes refresh_secs from_start [].

(** [while self.window and self.window[0].ts < cutoff: self.window.popleft()] *)
Fixpoint popleft_while (cutoff : Z) (w : list LootEvent) : list LootEvent :=
  match w with
  | e :: w' =>
      if to_seconds (ts e) <? cutoff then popleft_while cutoff w' else w
  | [] => []
  end.

(** [cutoff = ev.ts - timedelta(minutes=self.window_minutes)] *)
Definition cutoff_of (self : LiveMonitorWorker) (ev : LootEvent) : Z :=
  to_seconds (ts ev) - 60 * window_minutes self.

Definition add_event (self : LiveMonitorWorker) (ev : LootEvent)
  : LiveMonitorWorker :=
  let w := window self ++ [ev] in
  set_window self (popleft_while (cutoff_of self ev) w).

(** A [dict] keeps its keys in insertion order; [d[k] += q] on a
    [defaultdict(int)] updates the entry in place, or adds [k] at the end
    with [0 + q]. *)
Fixpoint dict_add (k : string) (q : Z) (d : list (string * Z))
  : list (string * Z) :=
  match d with
  | [] => [(k, 0 + q)]
  | (k', v) :: d' =>
      if String.eqb k' k then (k', v + q) :: d' else (k', v) :: dict_add k q d'
  end.

Definition item_stat : Type := (string * Z * Z)%type.

Definition stat_name (x : item_stat) : string := fst (fst x).
Definition stat_qty (x : item_stat) : Z := snd (fst x).
Definition stat_per_hour (x : item_stat) : Z := snd x.

(** [list.sort(key=lambda x: x[1], reverse=True)]: the sort is stable, and
    [reverse=True] keeps the original order of entries with equal keys.
    The stable result is unique, so an insertion sort stands for it. *)
Fixpoint insert_desc (x : item_stat) (l : list item_stat) : list item_stat :=
  match l with
  | [] => [x]
  | y :: l' =>
      if stat_qty x <? stat_qty y then y :: insert_desc x l' else x :: l
  end.

Fixpoint sort_desc (l : list item_stat) : list item_stat :=
  match l with
  | [] => []
  | x :: l' => insert_desc x (sort_desc l')
  end.

Record Stats : Type := mkStats
  { start : datetime;
    end_ : datetime;
    hours : Q;
    minutes : Q;
    total_yang : Z;
    yang_per_hour : Z;
    yang_per_minute : Z;
    items : list item_stat }.

Definition sum_yang (events_list : list LootEvent) : Z :=
  fold_left Z.add (map quantity (filter is_yang events_list)) 0.

Definition accumulate_items (events_list : list LootEvent) : list (string * Z) :=
  fold_left
    (fun d ev => if is_yang ev then d else dict_add (item ev) (quantity ev) d)
    events_list [].

(** [max((end - start).total_seconds(), 1)] *)
Definition elapsed_seconds (start end_ : datetime) : Z :=
  Z.max (to_seconds end_ - to_seconds start) 1.

Fixpoint build_items (hours : Q) (d : list (string * Z))
  : result (list item_stat) :=
  match d with
  | [] => Ok []
  | (name, qty) :: d' =>
      r <- py_truediv (inject_Z qty) hours ;;
      rest <- build_items hours d' ;;
      Ok ((name, qty, py_round r) :: rest)
  end.

(** The method reads [self.window] and nothing else of [self]; the worker
    is returned with the outcome to make that visible. *)
Definition compute_stats_from_window (self : LiveMonitorWorker)
  : result (option Stats) * LiveMonitorWorker :=
  match window self with
  | [] => (Ok None, self)
  | first :: _ =>
      let events_list := window self in
      let total_yang := sum_yang events_list in
      let items_qty := accumulate_items events_list in
      let start := ts first in
      let end_ := ts (last events_list first) in
      let elapsed := inject_Z (elapsed_seconds start end_) in
      let hours := (elapsed / 3600)%Q in
      let minutes := (elapsed / 60)%Q in
      (items_list <- build_items hours items_qty ;;
       yph <- py_truediv (inject_Z total_yang) hours ;;
       ypm <- py_truediv (inject_Z total_yang) minutes ;;
       Ok (Some (mkStats start end_ hours minutes total_yang
                   (py_round yph) (py_round ypm) (sort_desc items_list))),
       self)
  end.

(** ** The tail loop

    The environment of [run] is given as data: the outcome of [open], and
    for each turn of the [while] loop the outcome of [f.readline()] and the
    value of [time.time()] read in that turn. The loop ends when the script
    does, which stands for [stop_event] being set. *)

(** What [update_callback] receives. *)
Inductive payload : Type :=
| StatsMsg (stats : Stats)
| ErrorMsg (msg : string).

Record tail_state : Type := mkTail
  { self : LiveMonitorWorker;
    last_print : Q;
    emitted : list payload;     (* calls of [update_callback], oldest first *)
    idle : nat }.               (* calls of [time.sleep(0.2)] *)

Definition set_self (st : tail_state) (w : LiveMonitorWorker) : tail_state :=
  mkTail w (last_print st) (emitted st) (idle st).

Definition set_last_print (st : tail_state) (t : Q) : tail_state :=
  mkTail (self st) t (emitted st) (idle st).

Definition update_callback (st : tail_state) (p : payload) : tail_state :=
  mkTail (self st) (last_print st) (emitted st ++ [p]) (idle st).

Definition sleep (st : tail_state) : tail_state :=
  mkTail (self st) (last_print st) (emitted st) (S (idle st)).

(** The first half of the loop body: read a line and feed the window. *)
Definition read_step (rd : result string) (st : tail_state)
  : result tail_state :=
  line <- rd ;;
  if String.eqb line "" then Ok (sleep st)
  else
    ev <- parse_log_line line ;;
    match ev with
    | Some e => Ok (set_self st (add_event (self st) e))
    | None => Ok st
    end.

(** The second half: report when [refresh_secs] have passed. *)
Definition report_step (now_ts : Q) (st : tail_state) : result tail_state :=
  if Qle_bool (inject_Z (refresh_secs (self st))) (now_ts - last_print st) then
    let st1 := set_last_print st now_ts in
    let (r, self') := compute_stats_from_window (self st1) in
    stats <- r ;;
    match stats with
    | Some s => Ok (update_callback (set_self st1 self') (StatsMsg s))
    | None => Ok (set_self st1 self')
    end
  else Ok st.

Definition iteration (rd : result string) (now_ts : Q) (st : tail_state)
  : result tail_state :=
  st1 <- read_step rd st ;;
  report_step now_ts st1.

(** How the thread ends. *)
Inductive outcome : Type :=
| Stopped (st : tail_state)             (* loop left, file closed *)
| Died (e : exn) (st : tail_state)      (* uncaught exception in the loop *)
| OpenFailed (sent : list payload)      (* [except OSError] branch *)
| OpenDied (e : exn).                   (* another exception of [open] *)

Fixpoint loop (script : list (result string * Q)) (st : tail_state) : outcome :=
  match script with
  | [] => Stopped st
  | (rd, now_ts) :: rest =>
      match iteration rd now_ts st with
      | Ok st' => loop rest st'
      | Raise e => Died e st
      end
  end.

Definition run (w : LiveMonitorWorker) (open_result : result unit)
    (start_time : Q) (script : list (result string * Q)) : outcome :=
  match open_result with
  | Raise (OSError msg) => OpenFailed [ErrorMsg ("Cannot open log file: " ++ msg)]
  | Raise e => OpenDied e
  | Ok _ => loop script (mkTail w start_time [] 0)
  end.

(** ** Vocabulary of the statements *)

Definition seconds_of (ev : LootEvent) : Z := to_seconds (ts ev).

(** Timestamps in arrival order never decrease. *)
Fixpoint chronological (evs : list LootEvent) : bool :=
  match evs with
  | a :: (b :: _) as rest => (seconds_of a <=? seconds_of b) && chronological rest
  | _ => true
  end.

(** An event before, or not before, a cutoff. *)
Definition below (cutoff : Z) (x : LootEvent) : Prop := seconds_of x < cutoff.
Definition within (cutoff : Z) (x : LootEvent) : Prop := cutoff <= seconds_of x.

(** Any sequence of [add_event] calls on a worker. *)
Definition add_events (self : LiveMonitorWorker) (evs : list LootEvent)
  : LiveMonitorWorker :=
  fold_left add_event evs self.

(** The per-item rows before sorting, in dictionary order. *)
Definition rows_of (hours : Q) (d : list (string * Z)) : list item_stat :=
  map (fun kv => (fst kv, snd kv, py_round (inject_Z (snd kv) / hours)%Q)) d.

(** The snapshot of a window whose first event is [first]. *)
Definition snapshot_of (first : LootEvent) (w : list LootEvent) : Stats :=
  let el := inject_Z (elapsed_seconds (ts first) (ts (last w first))) in
  mkStats (ts first) (ts (last w first)) (el / 3600)%Q (el / 60)%Q
    (sum_yang w)
    (py_round (inject_Z (sum_yang w) / (el / 3600))%Q)
    (py_round (inject_Z (sum_yang w) / (el / 60))%Q)
    (sort_desc (rows_of (el / 3600)%Q (accumulate_items w))).

(** The position in the window of the first event named [name] (the length
    of the window when there is none). *)
Fixpoint first_seen (name : string) (w : list LootEvent) : nat :=
  match w with
  | [] => O
  | e :: w' => if String.eqb (item e) name then O else S (first_seen name w')
  end.

(** The quantities of the events named [name], added up. *)
Fixpoint total_quantity (name : string) (w : list LootEvent) : Z :=
  match w with
  | [] => 0
  | e :: w' =>
      (if String.eqb (item e) name then quantity e else 0)
      + total_quantity name w'
  end.

(** The name of row [a] appears in the window before the name of row [b]. *)
Definition seen_first (w : list LootEvent) (a b : item_stat) : Prop :=
  (first_seen (stat_name a) w < first_seen (stat_name b) w)%nat.

(** Row [a] goes before row [b]: more of it, or as much and seen first. *)
Definition ranked_before (w : list LootEvent) (a b : item_stat) : Prop :=
  stat_qty b < stat_qty a \/ (stat_qty a = stat_qty b /\ seen_first w a b).

(** An event of the window that is not currency and is named [name]. *)
Definition names_item (w : list LootEvent) (name : string) : Prop :=
  exists e, In e w /\ is_yang e = false /\ item e = name.

(** *** The text of a loot record *)

(** [dd<sep>dd<sep>dd]: three pairs of decimal digits. *)
Definition is_triple (sep : ascii) (t : str) : bool :=
  match t with
  | [a; b; s1; c; d; s2; e; f] =>
      forallb is_decimal [a; b; c; d; e; f]
      && N.eqb (N_of_ascii sep) s1 && N.eqb (N_of_ascii sep) s2
  | _ => false
  end.

(** One or more decimal digits. *)
Definition is_quantity (q : str) : bool :=
  match q with
  | [] => false
  | _ => forallb is_decimal q
  end.

(** What [(.+?)] followed by [\.] takes: one character that is not a
    newline, then characters that are neither a newline nor a period. *)
Definition is_item (i : str) : bool :=
  match i with
  | [] => false
  | a :: rest =>
      cmatch Dot a
      && forallb (fun x => cmatch Dot x && negb (N.eqb 46 x)) rest
  end.

(** The text [[D] [Tm]: You receive Q I.] of a record. *)
Definition record_text (D Tm Q I : str) : str :=
  chars "[" ++ D ++ chars "] [" ++ Tm ++ chars "]: You receive "
  ++ Q ++ chars " " ++ I ++ chars ".".

(** A loot record starts at the beginning of [s]. *)
Definition record_at (s : str) (D Tm Q I : str) : Prop :=
  is_triple "/" D = true /\ is_triple ":" Tm = true /\
  is_quantity Q = true /\ is_item I = true /\
  exists rest, s = record_text D Tm Q I ++ rest.

Definition starts_record (s : str) : Prop :=
  exists D Tm Q I, record_at s D Tm Q I.

(** The two characters of a number below one hundred. *)
Definition digit_char (n : Z) : ascii := ascii_of_nat (48 + Z.to_nat n).

Definition two (n : Z) : list ascii :=
  [digit_char (n / 10); digit_char (n mod 10)].

Definition date_text (dd mm yy : Z) : list ascii :=
  two dd ++ list_ascii_of_string "/" ++ two mm ++ list_ascii_of_string "/"
  ++ two yy.

Definition time_text (HH MM SS : Z) : list ascii :=
  two HH ++ list_ascii_of_string ":" ++ two MM ++ list_ascii_of_string ":"
  ++ two SS.

(** The groups [(\d{2}/\d{2}/\d{2})] and [(\d{2}:\d{2}:\d{2})]. *)
Definition triple (sep : ascii) : regex :=
  Group (Times 2 Digit ~ One (Chr (N_of_ascii sep)) ~ Times 2 Digit
         ~ One (Chr (N_of_ascii sep)) ~ Times 2 Digit).

(** The line grammar in the words of the specification: the whole line is
    [[DD/MM/YY] [HH:MM:SS]: You receive <quantity> <itemName>.], the
    quantity one or more digits, the item name the remaining text up to the
    trailing period. *)
Definition spec_line_matches (line D Tm Q I : str) : Prop :=
  is_triple "/" D = true /\ is_triple ":" Tm = true /\
  is_quantity Q = true /\ I <> [] /\
  line = record_text D Tm Q I.

(** ** Reading a whole file, and its statistics *)

(** An iterable being consumed: the items it yields, then its exhaustion
    ([None]) or the exception that ends it. *)
Definition generator (A : Type) : Type := (list A * option exn)%type.

(** [for line in f: ev = parse_log_line(line); if ev: yield ev] *)
Fixpoint iter_lines (lines : list string) : generator LootEvent :=
  match lines with
  | [] => ([], None)
  | line :: rest =>
      match parse_log_line line with
      | Ok (Some ev) => let (evs, e) := iter_lines rest in (ev :: evs, e)
      | Ok None => iter_lines rest
      | Raise e => ([], Some e)
      end
  end.

(** [open_result] is what [open(path, ...)] gives: the lines of the file, or
    the exception it raises. *)
Definition iter_events_from_file (open_result : result (list string))
  : generator LootEvent :=
  match open_result with
  | Ok lines => iter_lines lines
  | Raise e => ([], Some e)
  end.

Record EventStats : Type := mkEventStats
  { es_total_yang : Z;
    es_items_qty : list (string * Z);
    es_hours : Q;
    es_span : option (datetime * datetime) }.   (* the keys "start", "end" *)

(** One turn of the [for ev in events] loop of [stats_from_events], on
    [(total_yang, items_qty, events_list)]. *)
Definition stats_turn (acc : Z * list (string * Z) * list LootEvent)
    (ev : LootEvent) : Z * list (string * Z) * list LootEvent :=
  let '(total_yang, items_qty, events_list) := acc in
  if is_yang ev
  then (total_yang + quantity ev, items_qty, events_list ++ [ev])
  else (total_yang, dict_add (item ev) (quantity ev) items_qty,
        events_list ++ [ev]).

Definition stats_from_events (events : generator LootEvent)
  : result EventStats :=
  match snd events with
  | Some e => Raise e
  | None =>
      let '(total_yang, items_qty, events_list) :=
        fold_left stats_turn (fst events) (0, [], []) in
      match events_list with
      | [] => Ok (mkEventStats 0 [] 0 None)
      | first :: _ =>
          let start := ts first in
          let end_ := ts (last events_list first) in
          let elapsed_seconds := inject_Z (elapsed_seconds start end_) in
          let hours := (elapsed_seconds / 3600)%Q in
          Ok (mkEventStats total_yang items_qty hours (Some (start, end_)))
      end
  end.

(** ** The worker in binary64

    The statistics and the tail loop once more, with [hours], [minutes],
    the rates and the clock in binary64, as the interpreter runs them. A
    snapshot holds the numbers its doubles stand for. *)

Module Worker64.

(** [for name, qty in items_qty.items(): ... items_list.append(...)] *)
Fixpoint build_items (hours : spec_float) (d : list (string * Z))
  : result (list item_stat) :=
  match d with
  | [] => Ok []
  | (name, qty) :: d' =>
      per_hour <- Binary64.per qty hours ;;
      rest <- build_items hours d' ;;
      Ok ((name, qty, per_hour) :: rest)
  end.

(** [(end - start).total_seconds()] is the double nearest to the whole
    number of seconds between the two, and [max(x, 1)] is [x] unless
    [1 > x]: together the double of the larger of that number and 1. *)
Definition elapsed (start end_ : datetime) : result spec_float :=
  Binary64.of_int (Z.max (to_seconds end_ - to_seconds start) 1).

Definition compute_stats_from_window (self : LiveMonitorWorker)
  : result (option Stats) :=
  match window self with
  | [] => Ok None
  | first :: _ =>
      let events_list := window self in
      let total_yang := sum_yang events_list in
      let items_qty := accumulate_items events_list in
      let start := ts first in
      let end_ := ts (last events_list first) in
      elapsed <- elapsed start end_ ;;
      hours <- Binary64.truediv elapsed (Binary64.double 3600) ;;
      minutes <- Binary64.truediv elapsed (Binary64.double 60) ;;
      items_list <- build_items hours items_qty ;;
      yang_per_hour <- Binary64.per total_yang hours ;;
      yang_per_minute <- Binary64.per total_yang minutes ;;
      Ok (Some (mkStats start end_ (Binary64.value hours)
                  (Binary64.value minutes) total_yang yang_per_hour
                  yang_per_minute (sort_desc items_list)))
  end.

(** [stats_from_events]; the dictionary it returns is kept as a record, its
    keys [start] and [end] as an option. *)
Definition stats_from_events (events : generator LootEvent)
  : result EventStats :=
  match snd events with
  | Some e => Raise e
  | None =>
      let '(total_yang, items_qty, events_list) :=
        fold_left stats_turn (fst events) (0, [], []) in
      match events_list with
      | [] => Ok (mkEventStats 0 [] 0 None)
      | first :: _ =>
          let start := ts first in
          let end_ := ts (last events_list first) in
          elapsed_seconds <- elapsed start end_ ;;
          hours <- Binary64.truediv elapsed_seconds (Binary64.double 3600) ;;
          Ok (mkEventStats total_yang items_qty (Binary64.value hours)
                (Some (start, end_)))
      end
  end.

Record tail_state : Type := mkTail
  { self : LiveMonitorWorker;
    last_print : spec_float;
    emitted : list payload;     (* calls of [update_callback], oldest first *)
    idle : nat }.               (* calls of [time.sleep(0.2)] *)

Definition set_self (st : tail_state) (w : LiveMonitorWorker) : tail_state :=
  mkTail w (last_print st) (emitted st) (idle st).

Definition set_last_print (st : tail_state) (t : spec_float) : tail_state :=
  mkTail (self st) t (emitted st) (idle st).

Definition update_callback (st : tail_state) (p : payload) : tail_state :=
  mkTail (self st) (last_print st) (emitted st ++ [p]) (idle st).

Definition sleep (st : tail_state) : tail_state :=
  mkTail (self st) (last_print st) (emitted st) (S (idle st)).

(** The first half of the loop body: read a line and feed the window. *)
Definition read_step (rd : result string) (st : tail_state)
  : result tail_state :=
  line <- rd ;;
  if String.eqb line "" then Ok (sleep st)
  else
    ev <- parse_log_line line ;;
    match ev with
    | Some e => Ok (set_self st (add_event (self st) e))
    | None => Ok st
    end.

(** [now_ts - last_print >= self.refresh_secs] *)
Definition due (now_ts : spec_float) (st : tail_state) : bool :=
  Binary64.ge_int (Binary64.sub now_ts (last_print st))
                  (refresh_secs (self st)).

(** The second half: report when [refresh_secs] have passed. *)
Definition report_step (now_ts : spec_float) (st : tail_state)
  : result tail_state :=
  if due now_ts st then
    let st1 := set_last_print st now_ts in
    stats <- compute_stats_from_window (self st1) ;;
    match stats with
    | Some s => Ok (update_callback st1 (StatsMsg s))
    | None => Ok st1
    end
  else Ok st.

Definition iteration (rd : result string) (now_ts : spec_float)
    (st : tail_state) : result tail_state :=
  st1 <- read_step rd st ;;
  report_step now_ts st1.

(** How the thread ends. *)
Inductive outcome : Type :=
| Stopped (st : tail_state)             (* loop left, file closed *)
| Died (e : exn) (st : tail_state)      (* uncaught exception in the loop *)
| OpenFailed (sent : list payload)      (* [except OSError] branch *)
| OpenDied (e : exn).                   (* another exception of [open] *)

(** [st] in [Died e st] is the state at the start of the turn that raised. *)
Fixpoint loop (script : list (result string * spec_float)) (st : tail_state)
  : outcome :=
  match script with
  | [] => Stopped st
  | (rd, now_ts) :: rest =>
      match iteration rd now_ts st with
      | Ok st' => loop rest st'
      | Raise e => Died e st
      end
  end.

Definition run (w : LiveMonitorWorker) (open_result : result unit)
    (start_time : spec_float) (script : list (result string * spec_float))
  : outcome :=
  match open_result with
  | Raise (OSError msg) => OpenFailed [ErrorMsg ("Cannot open log file: " ++ msg)]
  | Raise e => OpenDied e
  | Ok _ => loop script (mkTail w start_time [] 0)
  end.

End Worker64.

(** *** Vocabulary for the tail loop and the totals *)

Definition sumZ (l : list Z) : Z := fold_right Z.add 0 l.

(** The clock values of the turns in which [update_callback] was called. *)
Fixpoint emission_times (script : list (result string * Q)) (st : tail_state)
  : list Q :=
  match script with
  | [] => []
  | (rd, now_ts) :: rest =>
      match iteration rd now_ts st with
      | Ok st' =>
          (if (List.length (emitted st) <? List.length (emitted st'))%nat
           then [now_ts] else [])
          ++ emission_times rest st'
      | Raise _ => []
      end
  end.

(** The lines read by a script whose reads all succeed. *)
Fixpoint lines_read (script : list (result string * Q)) : option (list string) :=
  match script with
  | [] => Some []
  | (Ok line, _) :: rest => option_map (cons line) (lines_read rest)
  | (Raise _, _) :: _ => None
  end.

Definition is_stats (p : payload) : Prop := exists s, p = StatsMsg s.

(** ** The window of the application

    [LootMonitorApp] is kept as the values its widgets hold: the variables
    of the entry fields, the state of the two buttons, the text and colour
    of the labels, the rows of the table, and the message boxes shown so
    far. Fonts, layout and the static row colours are left out. An
    exception that leaves a callback is reported by Tk and the main loop goes
    on with the state the callback left behind. *)

Definition bytes (l : list nat) : string :=
  string_of_list_ascii (map ascii_of_nat l).

(** [str(n)] of an [int] that is not negative. *)
Fixpoint digits_fuel (fuel : nat) (n : Z) : list ascii :=
  match fuel with
  | O => []
  | S f =>
      if n <? 10 then [digit_char n]
      else digits_fuel f (n / 10) ++ [digit_char (n mod 10)]
  end.

Definition digits_of (n : Z) : list ascii :=
  digits_fuel (S (Z.to_nat (Z.log2 n))) n.

(** A comma after every third character. *)
Fixpoint sep3 (k : nat) (l : list ascii) : list ascii :=
  match l with
  | [] => []
  | a :: l' =>
      match k with
      | O => ","%char :: a :: sep3 2 l'
      | S k' => a :: sep3 k' l'
      end
  end.

(** [f"{n:,}"]: the digits in groups of three counted from the right. *)
Definition format_thousands (n : Z) : string :=
  string_of_list_ascii
    ((if n <? 0 then ["-"%char] else [])
     ++ rev (sep3 3 (rev (digits_of (Z.abs n))))).

(** [d.strftime('%H:%M:%S')] *)
Definition strftime_HMS (d : datetime) : string :=
  string_of_list_ascii (time_text (hour d) (minute d) (second d)).

Inductive dialog : Type :=
| ShowInfo (title message : string)
| ShowError (title message : string).

Record label : Type := mkLabel { text : string; fg : string }.

Record tree_row : Type := mkRow
  { values : string * string * string; tag : string }.

Record Display : Type := mkDisplay
  { interval_label : label;
    window_length_label : label;
    yang_label : label;
    yang_per_hour_label : label;
    yang_per_minute_label : label;
    tree : list tree_row }.

Record LootMonitorApp : Type := mkApp
  { log_path_var : string;
    window_minutes_var : option Z;   (* [None]: the text is not a number *)
    refresh_secs_var : option Z;
    from_start_var : bool;
    worker : option (string * LiveMonitorWorker);   (* path and worker *)
    stop_event : bool;                               (* is it set *)
    start_button : bool;                             (* state "normal" *)
    stop_button : bool;
    display : Display;
    dialogs : list dialog;                           (* oldest first *)
    destroyed : bool }.

Definition text_color : string := "#e2e8f0".
Definition muted_text : string := "#94a3b8".
Definition accent_color : string := "#0fcc45".
Definition accent_secondary : string := "#0ea5e9".

(** The labels and the table as [create_widgets] makes them. *)
Definition created_display : Display :=
  mkDisplay (mkLabel "Interval: Not started" muted_text)
            (mkLabel "Window: 0.00 h" muted_text)
            (mkLabel "0" accent_color)
            (mkLabel "0" accent_secondary)
            (mkLabel "0" "#f59e0b")
            [].

(** [__init__] and [create_widgets]. *)
Definition app_init : LootMonitorApp :=
  mkApp "info_chat_loot.log" (Some 60) (Some 5) false None false true false
        created_display [] false.

Definition set_display (app : LootMonitorApp) (d : Display) : LootMonitorApp :=
  mkApp (log_path_var app) (window_minutes_var app) (refresh_secs_var app)
        (from_start_var app) (worker app) (stop_event app) (start_button app)
        (stop_button app) d (dialogs app) (destroyed app).

Definition show (app : LootMonitorApp) (d : dialog) : LootMonitorApp :=
  mkApp (log_path_var app) (window_minutes_var app) (refresh_secs_var app)
        (from_start_var app) (worker app) (stop_event app) (start_button app)
        (stop_button app) (display app) (dialogs app ++ [d]) (destroyed app).

Definition reset_stats_ui (app : LootMonitorApp) : LootMonitorApp :=
  set_display app
    (mkDisplay (mkLabel "Interval: Not started" muted_text)
               (mkLabel "Window: 0.00 h" muted_text)
               (mkLabel "0" accent_color)
               (mkLabel "0" accent_secondary)
               (mkLabel "0" "#f59e0b")
               []).

(** [filename] is what the file dialog returns, empty when it is cancelled. *)
Definition browse_file (filename : string) (app : LootMonitorApp)
  : LootMonitorApp :=
  if String.eqb filename "" then app
  else mkApp filename (window_minutes_var app) (refresh_secs_var app)
             (from_start_var app) (worker app) (stop_event app)
             (start_button app) (stop_button app) (display app)
             (dialogs app) (destroyed app).

Fixpoint lstrip (s : str) : str :=
  match s with
  | a :: s' => if is_space a then lstrip s' else s
  | [] => []
  end.

(** [s.strip()] *)
Definition strip (s : string) : string :=
  Utf8.encode (rev (lstrip (rev (lstrip (chars s))))).

(** [IntVar.get] on a field whose text is not a number. *)
Inductive tk_exn : Type := TclError.

(** The window after the call, and the exception that left it if any. *)
Definition start_monitor (app : LootMonitorApp)
  : LootMonitorApp * option tk_exn :=
  match worker app with
  | Some _ => (show app (ShowInfo "Info" "Monitor is already running."), None)
  | None =>
      let path := strip (log_path_var app) in
      if String.eqb path "" then
        (show app (ShowError "Error" "Please select a log file."), None)
      else
        let app1 := reset_stats_ui app in
        match window_minutes_var app1, refresh_secs_var app1 with
        | Some window_minutes, Some refresh_secs =>
            let w := new_worker window_minutes refresh_secs
                                (from_start_var app1) in
            (mkApp (log_path_var app1) (window_minutes_var app1)
                   (refresh_secs_var app1) (from_start_var app1)
                   (Some (path, w)) false false true
                   (display app1) (dialogs app1) (destroyed app1),
             None)
        | _, _ => (app1, Some TclError)
        end
  end.

Definition stop_monitor (app : LootMonitorApp) : LootMonitorApp :=
  mkApp (log_path_var app) (window_minutes_var app) (refresh_secs_var app)
        (from_start_var app) None
        (match worker app with Some _ => true | None => stop_event app end)
        true false (display app) (dialogs app) (destroyed app).

Definition on_close (app : LootMonitorApp) : LootMonitorApp :=
  let app1 := stop_monitor app in
  mkApp (log_path_var app1) (window_minutes_var app1) (refresh_secs_var app1)
        (from_start_var app1) (worker app1) (stop_event app1)
        (start_button app1) (stop_button app1) (display app1) (dialogs app1)
        true.

(** The separator of the two times in the interval label, byte for byte as
    the source file has it. *)
Definition interval_separator : string :=
  bytes [226; 128; 154; 195; 156; 195; 173]%nat.

(** [for idx, (name, qty, per_hour) in enumerate(items_list)] *)
Fixpoint tree_rows (idx : nat) (items_list : list item_stat) : list tree_row :=
  match items_list with
  | [] => []
  | (name, qty, per_hour) :: rest =>
      mkRow (name, format_thousands qty, format_thousands per_hour)
            (if Nat.even idx then "evenrow" else "oddrow")
      :: tree_rows (S idx) rest
  end.

Section FloatFormat.

(** [f"{x:.2f}"] and [f"{x:.1f}"] of a float, not modelled. *)
Variable format_2f format_1f : Q -> string.

Definition update_stats (stats : payload) (app : LootMonitorApp)
  : LootMonitorApp :=
  match stats with
  | ErrorMsg msg => stop_monitor (show app (ShowError "Error" msg))
  | StatsMsg s =>
      let d := display app in
      set_display app
        (mkDisplay
           (mkLabel ("Interval: " ++ strftime_HMS (start s) ++ " "
                     ++ interval_separator ++ " " ++ strftime_HMS (end_ s))
                    text_color)
           (mkLabel ("Window: " ++ format_2f (hours s) ++ " h ("
                     ++ format_1f (minutes s) ++ " min)")
                    text_color)
           (mkLabel (format_thousands (total_yang s)) (fg (yang_label d)))
           (mkLabel (format_thousands (yang_per_hour s))
                    (fg (yang_per_hour_label d)))
           (mkLabel (format_thousands (yang_per_minute s))
                    (fg (yang_per_minute_label d)))
           (tree_rows 0 (items s)))
  end.

(** What can happen to the window: the two buttons, the file dialog, edits
    of the fields, a call of [update_stats] queued by
    [schedule_update_stats], and closing. *)
Inductive ui_event : Type :=
| Click_start
| Click_stop
| Browse (filename : string)
| Edit_path (s : string)
| Edit_window (z : option Z)
| Edit_refresh (z : option Z)
| Edit_from_start (b : bool)
| Callback (stats : payload)
| Close.

Definition ui_step (app : LootMonitorApp) (ev : ui_event) : LootMonitorApp :=
  match ev with
  | Click_start => fst (start_monitor app)
  | Click_stop => stop_monitor app
  | Browse filename => browse_file filename app
  | Edit_path s =>
      mkApp s (window_minutes_var app) (refresh_secs_var app)
            (from_start_var app) (worker app) (stop_event app)
            (start_button app) (stop_button app) (display app) (dialogs app)
            (destroyed app)
  | Edit_window z =>
      mkApp (log_path_var app) z (refresh_secs_var app)
            (from_start_var app) (worker app) (stop_event app)
            (start_button app) (stop_button app) (display app) (dialogs app)
            (destroyed app)
  | Edit_refresh z =>
      mkApp (log_path_var app) (window_minutes_var app) z
            (from_start_var app) (worker app) (stop_event app)
            (start_button app) (stop_button app) (display app) (dialogs app)
            (destroyed app)
  | Edit_from_start b =>
      mkApp (log_path_var app) (window_minutes_var app) (refresh_secs_var app)
            b (worker app) (stop_event app)
            (start_button app) (stop_button app) (display app) (dialogs app)
            (destroyed app)
  | Callback stats => update_stats stats app
  | Close => on_close app
  end.

Definition ui_run (app : LootMonitorApp) (evs : list ui_event)
  : LootMonitorApp :=
  fold_left ui_step evs app.

End FloatFormat.

(** The session state of the window is coherent: Start is enabled exactly
    when there is no worker, Stop exactly when there is one, and the stop
    event of a running worker is not set. *)
Definition coherent (app : LootMonitorApp) : Prop :=
  match worker app with
  | None => start_button app = true /\ stop_button app = false
  | Some _ =>
      start_button app = false /\ stop_button app = true /\
      stop_event app = false
  end.

(** The index of a character counted from the end of the text. *)
Definition from_right (s : string) (i : nat) : option ascii :=
  nth_error (rev (list_ascii_of_string s)) i.

(** A character of a formatted number other than the separator. *)
Definition not_comma (c : ascii) : bool := negb (Ascii.eqb c ",").

(** The number a formatted text stands for. *)
Definition read_number (t : string) : Z :=
  int_of_digits (filter not_comma (list_ascii_of_string t)).

Definition row_name (r : tree_row) : string := fst (fst (values r)).
Definition row_qty (r : tree_row) : string := snd (fst (values r)).
Definition row_per_hour (r : tree_row) : string := snd (values r).

(** A text of white space only. *)
Definition blank (s : string) : bool := forallb is_space (chars s).

(** The line holds a loot record whose time of day is written [Tm]. *)
Definition logged_time (line : string) (Tm : str) : Prop :=
  exists before D Q I rest,
    chars line = before ++ record_text D Tm Q I ++ rest.

(** The ASCII digit of the same value, for a decimal digit; other
    characters as they are. *)
Definition ascii_digit (c : code) : code :=
  match decimal c with
  | Some v => (48 + Z.to_N v)%N
  | None => c
  end.

(** What holds of every state the window can reach. *)
Definition session_ok (app : LootMonitorApp) : Prop :=
  coherent app /\
  (forall p w, worker app = Some (p, w) -> blank p = false).

(** Splits every boolean conjunction among the hypotheses. *)
Ltac split_andb :=
  repeat match goal with
         | Hx : _ && _ = true |- _ => apply andb_prop in Hx; destruct Hx
         end.

(** ** The sliding window *)

Section Window.

Variable cutoff : Z.

Lemma popleft_while_split (w : list LootEvent) :
  exists dropped,
    w = dropped ++ popleft_while cutoff w /\
    Forall (below cutoff) dropped /\
    (forall h rest, popleft_while cutoff w = h :: rest -> within cutoff h).
Proof.
  induction w as [|e w IH]; simpl.
  - exists []. split; [|split]; auto. discriminate.
  - destruct (Z.ltb_spec (to_seconds (ts e)) cutoff) as [Hlt|Hge].
    + destruct IH as (d & Hw & Hd & Hh).
      exists (e :: d). split; [|split].
      * simpl. now rewrite <- Hw.
      * constructor; auto.
      * exact Hh.
    + exists []. split; [|split]; auto.
      intros h rest [= <- _]. exact Hge.
Qed.

Lemma popleft_while_keeps_last (w : list LootEvent) (ev : LootEvent) :
  within cutoff ev ->
  exists kept, popleft_while cutoff (w ++ [ev]) = kept ++ [ev].
Proof.
  intros Hev. induction w as [|e w IH]; simpl.
  - destruct (Z.ltb_spec (to_seconds (ts ev)) cutoff) as [Hlt|_].
    + unfold within, seconds_of in Hev. lia.
    + now exists [].
  - destruct (to_seconds (ts e) <? cutoff); auto.
    now exists (e :: w).
Qed.

End Window.

Lemma chronological_cons2 (a b : LootEvent) (l : list LootEvent) :
  chronological (a :: b :: l)
  = (seconds_of a <=? seconds_of b) && chronological (b :: l).
Proof. reflexivity. Qed.

Lemma chronological_tail (a : LootEvent) (l : list LootEvent) :
  chronological (a :: l) = true -> chronological l = true.
Proof.
  destruct l as [|b l]; auto.
  rewrite chronological_cons2. intros H. now apply andb_prop in H.
Qed.

Lemma chronological_bound (a : LootEvent) (l : list LootEvent) :
  chronological (a :: l) = true ->
  Forall (fun x => seconds_of a <= seconds_of x) l.
Proof.
  revert a. induction l as [|b l IH]; intros a H; constructor.
  - rewrite chronological_cons2 in H. apply andb_prop in H. lia.
  - assert (Hab : seconds_of a <= seconds_of b)
      by (rewrite chronological_cons2 in H; apply andb_prop in H; lia).
    apply chronological_tail in H. apply IH in H.
    eapply Forall_impl; [|exact H]. simpl. intros; lia.
Qed.

Lemma chronological_app (l1 l2 : list LootEvent) :
  chronological (l1 ++ l2) = true ->
  chronological l1 = true /\ chronological l2 = true /\
  (forall x y, In x l1 -> In y l2 -> seconds_of x <= seconds_of y).
Proof.
  induction l1 as [|a l1 IH]; simpl app; intros H.
  - repeat split; auto. intros x y [].
  - pose proof (chronological_bound _ _ H) as Hb.
    pose proof (chronological_tail _ _ H) as Ht.
    destruct (IH Ht) as (H1 & H2 & H3).
    repeat split; auto.
    + destruct l1 as [|b l1]; auto.
      simpl app in H. rewrite chronological_cons2 in H |- *.
      apply andb_prop in H. destruct H as [H _].
      now rewrite H, H1.
    + intros x y [<-|Hx] Hy; auto.
      rewrite Forall_forall in Hb. apply Hb. apply in_or_app. now right.
Qed.

Lemma window_add_event (self : LiveMonitorWorker) (ev : LootEvent) :
  window (add_event self ev)
  = popleft_while (cutoff_of self ev) (window self ++ [ev]).
Proof. reflexivity. Qed.

Lemma window_minutes_add_events (self : LiveMonitorWorker) (evs : list LootEvent) :
  window_minutes (add_events self evs) = window_minutes self.
Proof.
  revert self. induction evs as [|e evs IH]; intros self; simpl; auto.
  now rewrite IH.
Qed.

Lemma add_events_snoc (self : LiveMonitorWorker) evs ev :
  add_events self (evs ++ [ev]) = add_event (add_events self evs) ev.
Proof. unfold add_events. now rewrite fold_left_app. Qed.

(** One more arrival, given what has been evicted so far. *)
Lemma window_step (self : LiveMonitorWorker) (arrived gone : list LootEvent)
    (latest : LootEvent) :
  arrived = gone ++ window self ->
  Forall (fun x => seconds_of x < cutoff_of self latest) gone ->
  chronological (arrived ++ [latest]) = true ->
  exists evicted,
    arrived ++ [latest] = evicted ++ window (add_event self latest) /\
    Forall (fun x => cutoff_of self latest <= seconds_of x)
           (window (add_event self latest)) /\
    Forall (fun x => seconds_of x < cutoff_of self latest) evicted.
Proof.
  intros Harr Hgone Hchr.
  rewrite window_add_event.
  destruct (popleft_while_split (cutoff_of self latest) (window self ++ [latest]))
    as (d & Hd & Hbelow & Hhead).
  set (W := popleft_while (cutoff_of self latest) (window self ++ [latest])) in *.
  assert (Hall : arrived ++ [latest] = (gone ++ d) ++ W).
  { rewrite Harr, <- !app_assoc. now rewrite <- Hd. }
  exists (gone ++ d). split; [exact Hall|]. split.
  - rewrite Hall in Hchr. apply chronological_app in Hchr.
    destruct Hchr as (_ & HW & _).
    destruct W as [|h rest] eqn:EW; constructor.
    + now apply (Hhead h rest).
    + apply chronological_bound in HW.
      specialize (Hhead h rest eq_refl). unfold within in Hhead.
      eapply Forall_impl; [|exact HW]. simpl. intros; lia.
  - apply Forall_app. split; assumption.
Qed.

Lemma window_exact (m r : Z) (f : bool) (evs : list LootEvent) :
  forall latest,
    chronological (evs ++ [latest]) = true ->
    exists evicted,
      evs ++ [latest]
      = evicted ++ window (add_events (new_worker m r f) (evs ++ [latest])) /\
      Forall (fun x => seconds_of latest - 60 * m <= seconds_of x)
             (window (add_events (new_worker m r f) (evs ++ [latest]))) /\
      Forall (fun x => seconds_of x < seconds_of latest - 60 * m) evicted.
Proof.
  induction evs as [|prev evs IH] using rev_ind; intros latest Hchr.
  - apply (window_step (new_worker m r f) [] [] latest); auto.
  - rewrite add_events_snoc.
    assert (Hprev : chronological (evs ++ [prev]) = true).
    { now apply chronological_app in Hchr. }
    destruct (IH prev Hprev) as (gone & Hsplit & _ & Hgone).
    set (self1 := add_events (new_worker m r f) (evs ++ [prev])) in *.
    assert (Hm : window_minutes self1 = m)
      by apply window_minutes_add_events.
    assert (Hle : seconds_of prev <= seconds_of latest).
    { apply chronological_app in Hchr. destruct Hchr as (_ & _ & H).
      apply H; [apply in_or_app|]; simpl; auto. }
    pose proof (window_step self1 (evs ++ [prev]) gone latest Hsplit) as Hstep.
    unfold cutoff_of in Hstep. rewrite Hm in Hstep.
    apply Hstep; auto.
    eapply Forall_impl; [|exact Hgone].
    unfold seconds_of in *. simpl. intros; lia.
Qed.

(** C1. Window invariant with exact eviction. After the events
    [evs ++ [latest]] have been appended in chronological order to a new
    window, the arrivals split into an evicted prefix and the retained
    window: every retained event is at or after
    [latest - window_minutes], every evicted event is strictly before it.
    Moreover a single [add_event] on any window appends at the tail and
    drops from the head exactly the events below the cutoff: the dropped
    prefix is below it and the head that stays is not. *)
Theorem window_invariant_exact (m r : Z) (f : bool)
    (evs : list LootEvent) (latest : LootEvent)
    (Hchr : chronological (evs ++ [latest]) = true) :
  (exists evicted,
      evs ++ [latest]
      = evicted ++ window (add_events (new_worker m r f) (evs ++ [latest])) /\
      Forall (fun x => seconds_of latest - 60 * m <= seconds_of x)
             (window (add_events (new_worker m r f) (evs ++ [latest]))) /\
      Forall (fun x => seconds_of x < seconds_of latest - 60 * m) evicted)
  /\
  (forall self ev, exists dropped,
      window self ++ [ev] = dropped ++ window (add_event self ev) /\
      Forall (fun x => seconds_of x < seconds_of ev - 60 * window_minutes self)
             dropped /\
      (forall h rest, window (add_event self ev) = h :: rest ->
                      seconds_of ev - 60 * window_minutes self <= seconds_of h)).
Proof.
  split.
  - now apply window_exact.
  - intros self ev. rewrite window_add_event.
    apply (popleft_while_split (cutoff_of self ev)).
Qed.

(** C10. With a window length that is not negative, [add_event] never
    evicts the event it has just appended: the window is not empty
    afterwards and ends with that event. *)
Theorem add_event_keeps_new (self : LiveMonitorWorker) (ev : LootEvent)
    (Hlen : 0 <= window_minutes self) :
  window (add_event self ev) <> [] /\
  last (window (add_event self ev)) ev = ev /\
  exists kept, window (add_event self ev) = kept ++ [ev].
Proof.
  destruct (popleft_while_keeps_last (cutoff_of self ev) (window self) ev)
    as (kept & Hk).
  { unfold within, cutoff_of, seconds_of. lia. }
  rewrite window_add_event, Hk. split; [|split].
  - now destruct kept.
  - apply last_last.
  - now exists kept.
Qed.

(** ** Binary64: rounding to a normal double

    What [float(n)], a division and [round] give on doubles with a full
    mantissa: the size of the result, and when it is an infinity. *)

Lemma digits2_pos_spec (p : positive) :
  2 ^ (Z.pos (digits2_pos p) - 1) <= Z.pos p < 2 ^ Z.pos (digits2_pos p).
Proof.
  induction p as [p IH|p IH|]; cbn [digits2_pos];
    [| |split; [discriminate|reflexivity]];
    rewrite Pos2Z.inj_succ;
    [change (Z.pos p~1) with (2 * Z.pos p + 1)
    |change (Z.pos p~0) with (2 * Z.pos p)];
    set (d := Z.pos (digits2_pos p)) in *;
    assert (Hd : 0 < d) by apply Pos2Z.is_pos; clearbody d;
    replace (Z.succ d - 1) with (Z.succ (d - 1)) by lia;
    rewrite !Z.pow_succ_r by lia; lia.
Qed.

Lemma Zdigits2_bounds (m : Z) :
  0 < m -> 1 <= Zdigits2 m /\ 2 ^ (Zdigits2 m - 1) <= m < 2 ^ Zdigits2 m.
Proof.
  destruct m as [|p|p]; try lia. intros _. cbn [Zdigits2].
  split; [|apply digits2_pos_spec].
  pose proof (Pos2Z.is_pos (digits2_pos p)) as H.
  set (d := Z.pos (digits2_pos p)) in *. clearbody d. lia.
Qed.

Lemma Zdigits2_unique (m d : Z) :
  2 ^ (d - 1) <= m < 2 ^ d -> 1 <= d -> Zdigits2 m = d.
Proof.
  intros Hm Hd.
  assert (H0 : 0 < m).
  { pose proof (Z.pow_pos_nonneg 2 (d - 1)). lia. }
  destruct (Zdigits2_bounds m H0) as [H1 H2].
  destruct (Z.lt_trichotomy (Zdigits2 m) d) as [Hlt|[Heq|Hgt]]; [|exact Heq|].
  - pose proof (Z.pow_le_mono_r 2 (Zdigits2 m) (d - 1)). lia.
  - pose proof (Z.pow_le_mono_r 2 d (Zdigits2 m - 1)). lia.
Qed.

Lemma shr_1_m (mrs : shr_record) :
  0 <= shr_m mrs -> shr_m (shr_1 mrs) = shr_m mrs / 2.
Proof.
  destruct mrs as [m r s]. cbn [shr_m]. intros Hm.
  destruct m as [|q|q]; [reflexivity| |lia].
  destruct q as [p|p|]; cbn [shr_1 shr_m].
  - change (Z.pos p~1) with (2 * Z.pos p + 1).
    apply Z.div_unique with 1; lia.
  - change (Z.pos p~0) with (2 * Z.pos p).
    apply Z.div_unique with 0; lia.
  - reflexivity.
Qed.

Lemma iter_shr_1_m (p : positive) :
  forall mrs, 0 <= shr_m mrs ->
    shr_m (iter_pos shr_1 p mrs) = shr_m mrs / 2 ^ Z.pos p.
Proof.
  assert (Hpow : forall q, 0 < 2 ^ Z.pos q) by (intros; apply Z.pow_pos_nonneg; lia).
  induction p as [p IH|p IH|]; intros mrs Hm; cbn [iter_pos].
  - assert (H1 : 0 <= shr_m (shr_1 mrs)) by (rewrite shr_1_m by exact Hm; apply Z.div_pos; lia).
    assert (H2 : 0 <= shr_m (iter_pos shr_1 p (shr_1 mrs))).
    { rewrite IH by exact H1. pose proof (Hpow p). apply Z.div_pos; lia. }
    rewrite IH by exact H2. rewrite IH by exact H1. rewrite shr_1_m by exact Hm.
    rewrite !Z.div_div by (pose proof (Hpow p); lia).
    f_equal. change (Z.pos p~1) with (2 * Z.pos p + 1).
    replace (2 * Z.pos p + 1) with (Z.succ (Z.pos p + Z.pos p)) by lia.
    rewrite Z.pow_succ_r, Z.pow_add_r by lia. lia.
  - assert (H2 : 0 <= shr_m (iter_pos shr_1 p mrs)).
    { rewrite IH by exact Hm. pose proof (Hpow p). apply Z.div_pos; lia. }
    rewrite IH by exact H2. rewrite IH by exact Hm.
    rewrite Z.div_div by (pose proof (Hpow p); lia).
    f_equal. change (Z.pos p~0) with (2 * Z.pos p).
    replace (2 * Z.pos p) with (Z.pos p + Z.pos p) by lia.
    now rewrite Z.pow_add_r by lia.
  - now rewrite shr_1_m.
Qed.

Lemma shr_record_of_loc_m (m : Z) (l : location) :
  shr_m (shr_record_of_loc m l) = m.
Proof. now destruct l as [|[]]. Qed.

Lemma shr_fexp_spec (m e : Z) (l : location) :
  0 <= m ->
  let n := fexp 53 1024 (Zdigits2 m + e) - e in
  shr_m (fst (shr_fexp 53 1024 m e l)) = (if 0 <? n then m / 2 ^ n else m) /\
  snd (shr_fexp 53 1024 m e l) = (if 0 <? n then e + n else e).
Proof.
  intros Hm n. unfold shr_fexp. fold n. unfold shr.
  destruct n as [|p|p]; cbn [fst snd Z.ltb Z.compare].
  - now rewrite shr_record_of_loc_m.
  - split; [|reflexivity]. rewrite iter_shr_1_m; now rewrite shr_record_of_loc_m.
  - now rewrite shr_record_of_loc_m.
Qed.

Lemma round_nearest_even_bounds (m : Z) (l : location) :
  m <= round_nearest_even m l <= m + 1.
Proof.
  destruct l as [|[]]; cbn [round_nearest_even]; try lia.
  destruct (Z.even m); lia.
Qed.

Lemma fexp_normal (x : Z) : -1021 <= x -> fexp 53 1024 x = x - 53.
Proof. unfold fexp, emin. lia. Qed.

(** Rounding a mantissa of fifty-three digits or more, in the normal
    range: the result is normal, or an infinity when it is too large. *)
Lemma binary_round_aux_normal (sx : bool) (mx ex : Z) (lx : location) :
  0 < mx -> 53 <= Zdigits2 mx -> -1021 <= Zdigits2 mx + ex ->
  let E := Zdigits2 mx + ex in
  (binary_round_aux 53 1024 sx mx ex lx = S754_infinity sx /\ 1024 <= E) \/
  exists m e,
    binary_round_aux 53 1024 sx mx ex lx = S754_finite sx m e /\
    Z.pos (digits2_pos m) = 53 /\ E <= 53 + e <= E + 1 /\ e <= 971.
Proof.
  intros Hpos Hd HE E.
  destruct (Zdigits2_bounds mx Hpos) as [_ Hb].
  unfold binary_round_aux.
  destruct (shr_fexp_spec mx ex lx ltac:(lia)) as [Hm1 He1].
  destruct (shr_fexp 53 1024 mx ex lx) as [mrs1 e1]. cbn [fst snd] in Hm1, He1.
  rewrite fexp_normal in Hm1, He1 by exact HE. fold E in Hm1, He1.
  set (m1 := shr_m mrs1) in *.
  assert (Hm1b : 2 ^ 52 <= m1 < 2 ^ 53 /\ e1 = E - 53).
  { destruct (Z.ltb_spec 0 (E - 53 - ex)) as [Hn|Hn].
    - split; [|lia]. rewrite Hm1.
      replace (E - 53 - ex) with (Zdigits2 mx - 53) by (unfold E; lia).
      assert (Hp : 0 < 2 ^ (Zdigits2 mx - 53)) by (apply Z.pow_pos_nonneg; lia).
      assert (Hs1 : 2 ^ (Zdigits2 mx - 1) = 2 ^ 52 * 2 ^ (Zdigits2 mx - 53)).
      { rewrite <- Z.pow_add_r by lia. f_equal. lia. }
      assert (Hs2 : 2 ^ Zdigits2 mx = 2 ^ 53 * 2 ^ (Zdigits2 mx - 53)).
      { rewrite <- Z.pow_add_r by lia. f_equal. lia. }
      split.
      + apply Z.div_le_lower_bound; lia.
      + apply Z.div_lt_upper_bound; lia.
    - assert (Zdigits2 mx = 53) by (unfold E in Hn; lia).
      split; [|unfold E in *; lia]. rewrite Hm1.
      rewrite H in Hb. exact Hb. }
  destruct Hm1b as [Hm1b ->].
  pose proof (round_nearest_even_bounds m1 (loc_of_shr_record mrs1)) as Hr.
  set (m2 := round_nearest_even m1 (loc_of_shr_record mrs1)) in *.
  destruct (shr_fexp_spec m2 (E - 53) loc_Exact ltac:(lia)) as [Hm3 He3].
  destruct (shr_fexp 53 1024 m2 (E - 53) loc_Exact) as [mrs3 e3].
  cbn [fst snd] in Hm3, He3.
  destruct (Z.ltb_spec m2 (2 ^ 53)) as [Hlt|Hge].
  - assert (Hd2 : Zdigits2 m2 = 53) by (apply Zdigits2_unique; simpl; lia).
    rewrite Hd2 in Hm3, He3.
    replace (53 + (E - 53)) with E in Hm3, He3 by lia.
    rewrite fexp_normal in Hm3, He3 by exact HE.
    replace (E - 53 - (E - 53)) with 0 in Hm3, He3 by lia.
    cbn [Z.ltb Z.compare] in Hm3, He3. rewrite Hm3, He3.
    destruct m2 as [|p|p]; try lia.
    destruct (Z.leb_spec (E - 53) (1024 - 53)) as [Hle|Hgt].
    + right. exists p, (E - 53). split; [reflexivity|].
      change (Z.pos (digits2_pos p)) with (Zdigits2 (Z.pos p)). lia.
    + left. split; [reflexivity|lia].
  - assert (Hm2 : m2 = 2 ^ 53) by lia.
    assert (Hd2 : Zdigits2 m2 = 54) by (rewrite Hm2; reflexivity).
    rewrite Hd2 in Hm3, He3.
    rewrite fexp_normal in Hm3, He3 by lia.
    replace (54 + (E - 53) - 53 - (E - 53)) with 1 in Hm3, He3 by lia.
    cbn [Z.ltb Z.compare] in Hm3, He3. rewrite Hm3, He3, Hm2.
    change (2 ^ 53 / 2 ^ 1) with (Z.pos (2 ^ 52)).
    destruct (Z.leb_spec (E - 53 + 1) (1024 - 53)) as [Hle|Hgt].
    + right. exists (2 ^ 52)%positive, (E - 53 + 1). split; [reflexivity|].
      split; [reflexivity|lia].
    + left. split; [reflexivity|lia].
Qed.

Lemma iter_xO (d mx : positive) :
  Z.pos (Pos.iter xO mx d) = Z.pos mx * 2 ^ Z.pos d.
Proof.
  induction d as [|d IH] using Pos.peano_ind.
  - cbn [Pos.iter]. change (Z.pos mx~0) with (2 * Z.pos mx). lia.
  - rewrite Pos.iter_succ, Pos2Z.inj_succ, Z.pow_succ_r by lia.
    change (Z.pos (Pos.iter xO mx d)~0) with (2 * Z.pos (Pos.iter xO mx d)).
    rewrite IH. lia.
Qed.

(** Rounding a whole number: a normal double of its size, or an infinity. *)
Lemma binary_round_normal (sx : bool) (mx : positive) :
  let d := Z.pos (digits2_pos mx) in
  (binary_round 53 1024 sx mx 0 = S754_infinity sx /\ 1024 <= d) \/
  normal sx (d - 53) (Z.min (d - 52) 971) (binary_round 53 1024 sx mx 0).
Proof.
  intros d. unfold binary_round.
  assert (Hd : 1 <= d) by (pose proof (Pos2Z.is_pos (digits2_pos mx)); unfold d; lia).
  pose proof (digits2_pos_spec mx) as Hb. fold d in Hb.
  replace (fexp 53 1024 (Z.pos (digits2_pos mx) + 0)) with (d - 53)
    by (fold d; rewrite Z.add_0_r, fexp_normal; lia).
  unfold shl_align.
  destruct (d - 53 - 0) as [|k|k] eqn:Hk.
  - destruct (binary_round_aux_normal sx (Z.pos mx) 0 loc_Exact)
      as [[Hi HE]|(m & e & Hf & Hm & He & He')];
      try (cbn [Zdigits2]; fold d; lia).
    + left. split; [exact Hi|]. cbn [Zdigits2] in HE. fold d in HE. lia.
    + right. exists m, e. cbn [Zdigits2] in He. fold d in He.
      split; [exact Hf|]. split; [exact Hm|lia].
  - destruct (binary_round_aux_normal sx (Z.pos mx) 0 loc_Exact)
      as [[Hi HE]|(m & e & Hf & Hm & He & He')];
      try (cbn [Zdigits2]; fold d; lia).
    + left. split; [exact Hi|]. cbn [Zdigits2] in HE. fold d in HE. lia.
    + right. exists m, e. cbn [Zdigits2] in He. fold d in He.
      split; [exact Hf|]. split; [exact Hm|lia].
  - assert (Hmz : Zdigits2 (Z.pos (Pos.iter xO mx k)) = 53).
    { apply Zdigits2_unique; [|lia]. rewrite iter_xO.
      assert (Hp : 0 < 2 ^ Z.pos k) by (apply Z.pow_pos_nonneg; lia).
      assert (H1 : 2 ^ (53 - 1) = 2 ^ (d - 1) * 2 ^ Z.pos k).
      { rewrite <- Z.pow_add_r by lia. f_equal. lia. }
      assert (H2 : 2 ^ 53 = 2 ^ d * 2 ^ Z.pos k).
      { rewrite <- Z.pow_add_r by lia. f_equal. lia. }
      rewrite H1, H2. nia. }
    destruct (binary_round_aux_normal sx (Z.pos (Pos.iter xO mx k)) (d - 53)
                loc_Exact)
      as [[Hi HE]|(m & e & Hf & Hm & He & He')]; try (rewrite Hmz; lia);
      try reflexivity.
    + rewrite Hmz in HE. lia.
    + right. exists m, e. rewrite Hmz in He.
      split; [exact Hf|]. split; [exact Hm|lia].
Qed.

(** [float(n)]: zero, [OverflowError], or a normal double of the size of
    [n]; the last when [n] has fewer than 1024 binary digits. *)
Lemma of_int_cases (n : Z) :
  n <> 0 ->
  let d := Zdigits2 n in
  (Binary64.of_int n = Raise OverflowError /\ 1024 <= d) \/
  exists f, Binary64.of_int n = Ok f /\
            normal (n <? 0) (d - 53) (Z.min (d - 52) 971) f.
Proof.
  intros Hn d. unfold Binary64.of_int, Binary64.prec, Binary64.emax.
  destruct n as [|p|p]; [contradiction| |]; cbn [binary_normalize Z.ltb Z.compare].
  - destruct (binary_round_normal false p) as [[-> H]|Hf]; [now left|].
    right. eexists. split; [|exact Hf].
    destruct Hf as (m & e & -> & _). reflexivity.
  - destruct (binary_round_normal true p) as [[-> H]|Hf]; [now left|].
    right. eexists. split; [|exact Hf].
    destruct Hf as (m & e & -> & _). reflexivity.
Qed.

Lemma of_int_zero : Binary64.of_int 0 = Ok (S754_zero false).
Proof. reflexivity. Qed.

(** Dividing two normal doubles: a normal double, or an infinity. *)
Lemma SFdiv_normal (s1 s2 : bool) (m1 m2 : positive) (e1 e2 : Z) :
  Z.pos (digits2_pos m1) = 53 -> Z.pos (digits2_pos m2) = 53 ->
  -1021 <= e1 - e2 ->
  let x := SFdiv 53 1024 (S754_finite s1 m1 e1) (S754_finite s2 m2 e2) in
  (x = S754_infinity (xorb s1 s2) /\ 1023 <= e1 - e2) \/
  normal (xorb s1 s2) (e1 - e2 - 53) (Z.min (e1 - e2 - 51) 971) x.
Proof.
  intros H1 H2 HX x. unfold x, SFdiv, SFdiv_core_binary.
  cbn [Zdigits2]. rewrite H1, H2.
  replace (53 + e1 - (53 + e2)) with (e1 - e2) by lia.
  rewrite fexp_normal by exact HX.
  replace (Z.min (e1 - e2 - 53) (e1 - e2)) with (e1 - e2 - 53) by lia.
  replace (e1 - e2 - (e1 - e2 - 53)) with 53 by lia.
  rewrite Z.shiftl_mul_pow2 by lia.
  pose proof (digits2_pos_spec m1) as B1. rewrite H1 in B1.
  pose proof (digits2_pos_spec m2) as B2. rewrite H2 in B2.
  destruct (Z.div_eucl (Z.pos m1 * 2 ^ 53) (Z.pos m2)) as [q r] eqn:Hqr.
  assert (Hq : q = Z.pos m1 * 2 ^ 53 / Z.pos m2).
  { unfold Z.div. now rewrite Hqr. }
  assert (Hqb : 2 ^ 52 <= q < 2 ^ 54).
  { rewrite Hq. split.
    - apply Z.div_le_lower_bound; [lia|].
      change (2 ^ (53 - 1)) with (2 ^ 52) in *. nia.
    - apply Z.div_lt_upper_bound; [lia|].
      change (2 ^ (53 - 1)) with (2 ^ 52) in *.
      change (2 ^ 54) with (2 ^ 53 * 2) in *. nia. }
  assert (Hqd : 53 <= Zdigits2 q <= 54).
  { destruct (Z.ltb_spec q (2 ^ 53)).
    - rewrite (Zdigits2_unique q 53); simpl; lia.
    - rewrite (Zdigits2_unique q 54); simpl; lia. }
  destruct (binary_round_aux_normal (xorb s1 s2) q (e1 - e2 - 53)
              (new_location (Z.pos m2) r))
    as [[Hi HE]|(m & e & Hf & Hm & He & He')]; try lia.
  - left. split; [exact Hi|lia].
  - right. exists m, e. split; [exact Hf|]. split; [exact Hm|lia].
Qed.

Lemma round_finite (s : bool) (m : positive) (e : Z) :
  exists v, Binary64.round (S754_finite s m e) = Ok v /\
            (s = false -> 0 <= v).
Proof.
  unfold Binary64.round. eexists. split; [reflexivity|]. intros ->.
  destruct (Z.leb_spec 0 e).
  - apply Z.mul_nonneg_nonneg; [lia|]. apply Z.pow_nonneg. lia.
  - assert (Hp : 0 < 2 ^ (- e)) by (apply Z.pow_pos_nonneg; lia).
    assert (Hfl : 0 <= Z.pos m / 2 ^ (- e)) by (apply Z.div_pos; lia).
    destruct (_ <? _); [exact Hfl|]. destruct (_ <? _); [lia|].
    destruct (Z.even _); lia.
Qed.

(** [int(round(q / h))] for a normal [h] that is neither huge nor tiny:
    a number, or [OverflowError] when [q] is too large. *)
Lemma per_cases (q : Z) (h : spec_float) :
  normal false (-64) 969 h ->
  (Binary64.per q h = Raise OverflowError /\ 2 ^ 1000 <= Z.abs q) \/
  exists v, Binary64.per q h = Ok v /\ (0 <= q -> 0 <= v).
Proof.
  intros (mh & eh & -> & Hmh & Heh). unfold Binary64.per.
  destruct (Z.eq_dec q 0) as [->|Hq].
  { right. exists 0. split; [reflexivity|lia]. }
  assert (Hdq : Z.abs q < 2 ^ 1000 -> Zdigits2 q <= 1000).
  { intros Hlt. destruct q as [|p|p]; [contradiction| |];
      cbn [Zdigits2];
      pose proof (digits2_pos_spec p) as Hb;
      set (d := Z.pos (digits2_pos p)) in *;
      (destruct (Z.le_gt_cases d 1000) as [Hle|Hgt]; [exact Hle|]);
      pose proof (Z.pow_le_mono_r 2 1000 (d - 1)); cbn [Z.abs] in Hlt; lia. }
  assert (Hd1 : 1 <= Zdigits2 q).
  { destruct q as [|p|p]; [contradiction| |]; cbn [Zdigits2];
      pose proof (Pos2Z.is_pos (digits2_pos p)); lia. }
  destruct (of_int_cases q Hq) as [[Ho Hbig]|(f & Ho & (mq & eq_ & -> & Hmq & Heq))];
    rewrite Ho; cbn [bind].
  { left. split; [reflexivity|].
    destruct (Z.lt_ge_cases (Z.abs q) (2 ^ 1000)) as [Hlt|Hge]; [|exact Hge].
    apply Hdq in Hlt. lia. }
  unfold Binary64.truediv, Binary64.prec, Binary64.emax. cbn [bind].
  destruct (SFdiv_normal (q <? 0) false mq mh eq_ eh Hmq Hmh ltac:(lia))
    as [[Hi Hbig]|(m & e & Hf & _)].
  - rewrite Hi. left. split; [reflexivity|].
    destruct (Z.lt_ge_cases (Z.abs q) (2 ^ 1000)) as [Hlt|Hge]; [|exact Hge].
    apply Hdq in Hlt. lia.
  - rewrite Hf. right.
    destruct (round_finite (xorb (q <? 0) false) m e) as (v & Hv & Hpos).
    exists v. split; [exact Hv|]. intros Hq0. apply Hpos.
    destruct (Z.ltb_spec q 0); [lia|reflexivity].
Qed.

(** [hours] and [minutes] of at least one elapsed second are normal
    doubles, unless the seconds are too many for a double. *)
Lemma hours_minutes (el : Z) :
  1 <= el ->
  (Binary64.of_int el = Raise OverflowError /\ 2 ^ 1023 <= el) \/
  exists fe h m,
    Binary64.of_int el = Ok fe /\
    Binary64.truediv fe (Binary64.double 3600) = Ok h /\
    Binary64.truediv fe (Binary64.double 60) = Ok m /\
    normal false (-64) 969 h /\ normal false (-64) 969 m.
Proof.
  intros Hel.
  assert (Hd1 : 1 <= Zdigits2 el).
  { destruct el as [|p|p]; try lia. cbn [Zdigits2].
    pose proof (Pos2Z.is_pos (digits2_pos p)); lia. }
  destruct (of_int_cases el ltac:(lia))
    as [[Ho Hbig]|(fe & Ho & (me & ee & -> & Hme & Hee))].
  { left. split; [exact Ho|].
    destruct (Zdigits2_bounds el ltac:(lia)) as [_ [Hb _]].
    pose proof (Z.pow_le_mono_r 2 1023 (Zdigits2 el - 1)). lia. }
  right. replace (el <? 0) with false in * by lia.
  change (Binary64.double 3600) with (S754_finite false 7916483719987200 (-41)).
  change (Binary64.double 60) with (S754_finite false 8444249301319680 (-47)).
  unfold Binary64.truediv, Binary64.prec, Binary64.emax.
  destruct (SFdiv_normal false false me 7916483719987200 ee (-41) Hme eq_refl
              ltac:(lia)) as [[_ Hbig]|(mh & eh & Hh & Hmh & Heh)]; [lia|].
  destruct (SFdiv_normal false false me 8444249301319680 ee (-47) Hme eq_refl
              ltac:(lia)) as [[_ Hbig]|(mm & em & Hm & Hmm & Hem)]; [lia|].
  do 3 eexists. split; [exact Ho|]. split; [reflexivity|].
  split; [reflexivity|]. cbn [xorb] in *. split.
  - exists mh, eh. split; [exact Hh|]. split; [exact Hmh|lia].
  - exists mm, em. split; [exact Hm|]. split; [exact Hmm|lia].
Qed.

Lemma value_positive (x : spec_float) (lo hi : Z) :
  normal false lo hi x -> (0 < Binary64.value x)%Q.
Proof.
  intros (m & e & -> & _). unfold Binary64.value.
  destruct (Z.leb_spec 0 e).
  - unfold Qlt, inject_Z. cbn [Qnum Qden].
    assert (0 < 2 ^ e) by (apply Z.pow_pos_nonneg; lia). nia.
  - unfold Qlt. cbn [Qnum Qden]. lia.
Qed.

(** ** The statistics *)

Lemma py_truediv_ok (a b : Q) :
  ~ (b == 0)%Q -> py_truediv a b = Ok (a / b)%Q.
Proof.
  intros Hb. unfold py_truediv.
  destruct (Qeq_bool b 0) eqn:E; auto.
  apply Qeq_bool_iff in E. contradiction.
Qed.

Lemma elapsed_floor (a b : datetime) : 1 <= elapsed_seconds a b.
Proof. unfold elapsed_seconds. lia. Qed.

Lemma scaled_nonzero (el : Z) (unit_ : positive) :
  1 <= el -> ~ (inject_Z el / inject_Z (Z.pos unit_) == 0)%Q.
Proof.
  intros Hel. destruct el as [|p|p]; try lia.
  unfold Qeq, Qdiv, Qmult, Qinv, inject_Z. simpl. lia.
Qed.

Lemma build_items_ok (hours : Q) (d : list (string * Z)) :
  ~ (hours == 0)%Q -> build_items hours d = Ok (rows_of hours d).
Proof.
  intros Hh. induction d as [|[name qty] d IH]; simpl; auto.
  rewrite (py_truediv_ok _ _ Hh). simpl. now rewrite IH.
Qed.

(** On a window that is not empty every division succeeds. *)
Lemma compute_stats_nonempty (self : LiveMonitorWorker) first rest :
  window self = first :: rest ->
  compute_stats_from_window self
  = (Ok (Some (snapshot_of first (window self))), self).
Proof.
  intros Hw. unfold compute_stats_from_window. rewrite Hw.
  set (w := first :: rest).
  pose proof (elapsed_floor (ts first) (ts (last w first))) as Hel.
  pose proof (scaled_nonzero _ 3600 Hel) as Hh.
  pose proof (scaled_nonzero _ 60 Hel) as Hm.
  change (inject_Z 3600) with (3600%Q) in Hh.
  change (inject_Z 60) with (60%Q) in Hm.
  rewrite (build_items_ok _ _ Hh). simpl bind.
  rewrite (py_truediv_ok _ _ Hh). simpl bind.
  rewrite (py_truediv_ok _ _ Hm). reflexivity.
Qed.

Lemma compute_stats_empty (self : LiveMonitorWorker) :
  window self = [] -> compute_stats_from_window self = (Ok None, self).
Proof. intros Hw. unfold compute_stats_from_window. now rewrite Hw. Qed.



(** ** The tail loop *)

Lemma read_step_emitted (rd : result string) (st st1 : tail_state) :
  read_step rd st = Ok st1 ->
  emitted st1 = emitted st /\ last_print st1 = last_print st.
Proof.
  unfold read_step. destruct rd as [line|e]; simpl; [|discriminate].
  destruct (String.eqb line "").
  - intros [= <-]. auto.
  - destruct (parse_log_line line) as [[ev|]|e]; simpl;
      try discriminate; intros [= <-]; auto.
Qed.

(** What one report does, by the state of the window. *)
Lemma report_step_cases (now_ts : Q) (st : tail_state) :
  exists st',
    report_step now_ts st = Ok st' /\ self st' = self st /\
    idle st' = idle st /\
    match window (self st) with
    | [] => emitted st' = emitted st
    | first :: _ =>
        if Qle_bool (inject_Z (refresh_secs (self st))) (now_ts - last_print st)
        then emitted st'
             = emitted st ++ [StatsMsg (snapshot_of first (window (self st)))]
        else emitted st' = emitted st
    end.
Proof.
  unfold report_step.
  destruct (Qle_bool _ _).
  - destruct (window (self st)) as [|first rest] eqn:Hw.
    + change (self (set_last_print st now_ts)) with (self st).
      rewrite (compute_stats_empty _ Hw). simpl.
      eexists; repeat split.
    + change (self (set_last_print st now_ts)) with (self st).
      rewrite (compute_stats_nonempty _ first rest Hw). simpl.
      eexists; repeat split. simpl. now rewrite Hw.
  - exists st. repeat split. now destruct (window (self st)).
Qed.

(** C7. Empty-window guard. The snapshot computation answers [None] exactly
    when the window is empty; a turn of the tail loop that ends with an empty
    window has called [update_callback] not at all, so what the consumer
    received before stays as it is; and a report on a window that is not
    empty sends its snapshot when the refresh time has passed. *)
Theorem empty_window_guard :
  (forall w, fst (compute_stats_from_window w) = Ok None <-> window w = []) /\
  (forall rd now_ts st st',
      iteration rd now_ts st = Ok st' ->
      window (self st') = [] ->
      emitted st' = emitted st) /\
  (forall now_ts st first rest,
      window (self st) = first :: rest ->
      Qle_bool (inject_Z (refresh_secs (self st))) (now_ts - last_print st)
      = true ->
      exists st' s,
        report_step now_ts st = Ok st' /\
        fst (compute_stats_from_window (self st)) = Ok (Some s) /\
        emitted st' = emitted st ++ [StatsMsg s]).
Proof.
  split; [|split].
  - intros w. destruct (window w) as [|first rest] eqn:Hw.
    + rewrite (compute_stats_empty w Hw). simpl. tauto.
    + rewrite (compute_stats_nonempty w first rest Hw). simpl.
      split; discriminate.
  - intros rd now_ts st st' Hit Hempty.
    unfold iteration in Hit.
    destruct (read_step rd st) as [st1|e] eqn:Hread; [|discriminate].
    simpl in Hit. apply read_step_emitted in Hread. destruct Hread as [He _].
    destruct (report_step_cases now_ts st1) as (st2 & Hrep & Hself & _ & Hcase).
    rewrite Hrep in Hit. injection Hit as <-.
    rewrite Hself in Hempty. rewrite Hempty in Hcase. congruence.
  - intros now_ts st first rest Hw Hdue.
    destruct (report_step_cases now_ts st) as (st' & Hrep & _ & _ & Hcase).
    rewrite Hw, Hdue in Hcase.
    exists st', (snapshot_of first (first :: rest)). split; [exact Hrep|].
    split; [|exact Hcase].
    rewrite (compute_stats_nonempty _ first rest Hw). simpl. now rewrite Hw.
Qed.

Lemma popleft_while_none (cutoff : Z) (w : list LootEvent) :
  (forall h rest, w = h :: rest -> cutoff <= seconds_of h) ->
  popleft_while cutoff w = w.
Proof.
  destruct w as [|h rest]; intros Hh; simpl; auto.
  specialize (Hh h rest eq_refl). unfold seconds_of in Hh.
  destruct (Z.ltb_spec (to_seconds (ts h)) cutoff); auto. lia.
Qed.

Lemma window_add_event_all (self : LiveMonitorWorker) (ev : LootEvent) :
  (forall h rest, window self ++ [ev] = h :: rest ->
                  seconds_of ev - 60 * window_minutes self <= seconds_of h) ->
  window (add_event self ev) = window self ++ [ev].
Proof.
  intros Hh. rewrite window_add_event. now apply popleft_while_none.
Qed.

(** C9. End-to-end scenario. On any day, appending 5 Yang at 10:00:00,
    100 Iron Ore at 10:00:10 and 5 Yang at 10:30:00 to a new 60-minute window
    keeps all three events, and the snapshot has [total_yang = 10], the
    interval 10:00:00 to 10:30:00, 1800 elapsed seconds (half an hour),
    20 Yang per hour and the single row [("Iron Ore", 100, 200)]; the two
    rates are the same when computed in binary64. *)
Theorem end_to_end_scenario (y mo d r : Z) (f : bool) :
  let at_ := fun h mi s => mkdt y mo d h mi s in
  let evs := [ mkLootEvent (at_ 10 0 0) 5 "Yang";
               mkLootEvent (at_ 10 0 10) 100 "Iron Ore";
               mkLootEvent (at_ 10 30 0) 5 "Yang" ] in
  let w := add_events (new_worker 60 r f) evs in
  exists s,
    compute_stats_from_window w = (Ok (Some s), w) /\
    window w = evs /\
    total_yang s = 10 /\
    start s = at_ 10 0 0 /\
    end_ s = at_ 10 30 0 /\
    elapsed_seconds (start s) (end_ s) = 1800 /\
    (hours s == 1 # 2)%Q /\
    yang_per_hour s = 20 /\
    items s = [("Iron Ore"%string, 100, 200)] /\
    Binary64.rate 10 1800 3600 = Ok 20 /\
    Binary64.rate 100 1800 3600 = Ok 200.
Proof.
  intros at_ evs w.
  set (e1 := mkLootEvent (at_ 10 0 0) 5 "Yang") in *.
  set (e2 := mkLootEvent (at_ 10 0 10) 100 "Iron Ore") in *.
  set (e3 := mkLootEvent (at_ 10 30 0) 5 "Yang") in *.
  set (w0 := new_worker 60 r f) in *.
  assert (Hhead : forall ev tl, In ev [e1; e2; e3] ->
            forall h rest, e1 :: tl = h :: rest ->
            seconds_of ev - 60 * 60 <= seconds_of h).
  { intros ev tl Hin h rest [= <- _].
    unfold seconds_of, to_seconds, toordinal.
    destruct Hin as [<-|[<-|[<-|[]]]];
      cbn [ts e1 e2 e3 at_ year month day hour minute second]; lia. }
  assert (H1 : window (add_event w0 e1) = [e1]).
  { apply window_add_event_all. apply (Hhead e1 []). simpl; auto. }
  assert (H2 : window (add_event (add_event w0 e1) e2) = [e1; e2]).
  { rewrite window_add_event_all; rewrite H1; auto.
    apply (Hhead e2 [e2]). simpl; auto. }
  assert (Hw : window w = evs).
  { unfold w, evs, add_events. cbn [fold_left].
    rewrite window_add_event_all; rewrite H2; auto.
    apply (Hhead e3 [e2; e3]). simpl; auto. }
  assert (Hel : elapsed_seconds (at_ 10 0 0) (at_ 10 30 0) = 1800).
  { unfold elapsed_seconds, to_seconds, toordinal, at_.
    cbn [year month day hour minute second]. lia. }
  exists (snapshot_of e1 evs).
  split; [|split; [exact Hw|]].
  - rewrite (compute_stats_nonempty w _ _ Hw). now rewrite Hw.
  - unfold snapshot_of.
    cbn [start end_ total_yang hours yang_per_hour items evs last ts e1 e3].
    rewrite Hel. repeat split; vm_compute; reflexivity.
Qed.

(** ** The per-item dictionary *)

Lemma first_seen_present (name : string) (w w2 : list LootEvent) :
  (exists e, In e w /\ item e = name) ->
  first_seen name (w ++ w2) = first_seen name w /\
  (first_seen name w < List.length w)%nat.
Proof.
  induction w as [|x w IH]; intros (e & Hin & He).
  - destruct Hin.
  - simpl. destruct (String.eqb_spec (item x) name) as [_|Hx].
    + split; [reflexivity|lia].
    + destruct Hin as [->|Hin]; [contradiction|].
      destruct IH as [IH1 IH2]; [now exists e|]. rewrite IH1. split; lia.
Qed.

Lemma first_seen_absent (name : string) (w w2 : list LootEvent) :
  (forall e, In e w -> item e <> name) ->
  first_seen name (w ++ w2) = (List.length w + first_seen name w2)%nat.
Proof.
  induction w as [|x w IH]; intros Habs; simpl; auto.
  destruct (String.eqb_spec (item x) name) as [Hx|_].
  - exfalso. apply (Habs x); simpl; auto.
  - rewrite IH; auto. intros e He. apply Habs. now right.
Qed.

Lemma total_quantity_app (name : string) (w1 w2 : list LootEvent) :
  total_quantity name (w1 ++ w2)
  = total_quantity name w1 + total_quantity name w2.
Proof. induction w1 as [|x w1 IH]; simpl; lia. Qed.

Lemma dict_add_present (k : string) (q : Z) (d : list (string * Z)) :
  In k (map fst d) -> map fst (dict_add k q d) = map fst d.
Proof.
  induction d as [|[k' v] d IH]; simpl; [tauto|].
  destruct (String.eqb_spec k' k) as [->|Hne]; auto.
  intros [?|Hin]; [contradiction|]. simpl. now rewrite IH.
Qed.

Lemma dict_add_absent (k : string) (q : Z) (d : list (string * Z)) :
  ~ In k (map fst d) -> dict_add k q d = d ++ [(k, q)].
Proof.
  induction d as [|[k' v] d IH]; simpl; intros Hout; auto.
  destruct (String.eqb_spec k' k) as [->|Hne]; [tauto|].
  rewrite IH; tauto.
Qed.

(** With distinct keys, [d[k] += q] changes the entry of [k] and no other. *)
Lemma dict_add_entries (k : string) (q : Z) (d : list (string * Z)) :
  NoDup (map fst d) ->
  forall k' v',
    In (k', v') (dict_add k q d) ->
    (k' <> k /\ In (k', v') d) \/
    (k' = k /\ exists v, In (k, v) d /\ v' = v + q) \/
    (k' = k /\ ~ In k (map fst d) /\ v' = q).
Proof.
  induction d as [|[k0 v0] d IH]; simpl; intros Hnd k' v' Hin.
  - destruct Hin as [[= <- <-]|[]]. right; right. tauto.
  - inversion Hnd as [|? ? Hk0 Hnd']; subst.
    destruct (String.eqb_spec k0 k) as [->|Hne].
    + destruct Hin as [[= <- <-]|Hin].
      * right; left. split; auto. exists v0. auto.
      * left. split; auto. intros ->. apply Hk0.
        now apply (in_map fst) in Hin.
    + destruct Hin as [[= <- <-]|Hin].
      * left. auto.
      * destruct (IH Hnd' k' v' Hin) as [[H1 H2]|[(H1 & v & H2 & H3)|(H1 & H2 & H3)]].
        -- left; auto.
        -- right; left. split; auto. exists v; auto.
        -- right; right. repeat split; auto. intros [H|H]; auto.
Qed.

Lemma accumulate_items_snoc (w : list LootEvent) (e : LootEvent) :
  accumulate_items (w ++ [e])
  = if is_yang e then accumulate_items w
    else dict_add (item e) (quantity e) (accumulate_items w).
Proof. unfold accumulate_items. now rewrite fold_left_app. Qed.

Lemma StronglySorted_snoc {A : Type} (R : A -> A -> Prop) (l : list A) (x : A) :
  StronglySorted R l -> Forall (fun a => R a x) l ->
  StronglySorted R (l ++ [x]).
Proof.
  induction 1 as [|a l Hs IH Ha]; intros Hx; simpl.
  - repeat constructor.
  - inversion Hx; subst. constructor; auto.
    apply Forall_app. split; auto.
Qed.

Lemma StronglySorted_within {A : Type} (R R' : A -> A -> Prop) (l : list A) :
  (forall a b, In a l -> In b l -> R a b -> R' a b) ->
  StronglySorted R l -> StronglySorted R' l.
Proof.
  intros Himp Hs. induction Hs as [|a l Hs IH Ha]; constructor.
  - apply IH. intros; apply Himp; simpl; auto.
  - rewrite Forall_forall in Ha |- *. intros b Hb.
    apply Himp; simpl; auto.
Qed.

Lemma StronglySorted_map {A B : Type} (f : A -> B) (R : B -> B -> Prop)
    (l : list A) :
  StronglySorted R (map f l) -> StronglySorted (fun a b => R (f a) (f b)) l.
Proof.
  induction l as [|a l IH]; simpl; intros Hs; constructor;
    inversion Hs; subst; auto.
  now rewrite Forall_map in *.
Qed.

Lemma is_yang_name (e : LootEvent) :
  is_yang e = true <-> item e = "Yang"%string.
Proof. unfold is_yang. apply String.eqb_eq. Qed.

(** What the dictionary holds after one pass over the window: one key per
    item name that is not currency, in the order of first appearance, each
    with the total of its quantities. *)
Lemma accumulate_items_spec (w : list LootEvent) :
  NoDup (map fst (accumulate_items w)) /\
  (forall k, In k (map fst (accumulate_items w)) <-> names_item w k) /\
  (forall k v, In (k, v) (accumulate_items w) -> v = total_quantity k w) /\
  StronglySorted (fun a b => (first_seen a w < first_seen b w)%nat)
                 (map fst (accumulate_items w)).
Proof.
  induction w as [|e w IH] using rev_ind.
  - simpl. repeat split; try constructor; try contradiction.
    intros (e & [] & _).
  - destruct IH as (Hnd & Hkeys & Hvals & Hord).
    assert (Hseen : forall k, In k (map fst (accumulate_items w)) ->
              first_seen k (w ++ [e]) = first_seen k w /\
              (first_seen k w < List.length w)%nat).
    { intros k Hk. apply first_seen_present.
      apply Hkeys in Hk. destruct Hk as (x & Hx & _ & Hn). now exists x. }
    assert (Hold : StronglySorted
              (fun a b => (first_seen a (w ++ [e]) < first_seen b (w ++ [e]))%nat)
              (map fst (accumulate_items w))).
    { eapply StronglySorted_within; [|exact Hord].
      intros a b Ha Hb. simpl.
      destruct (Hseen a Ha) as [-> _]. now destruct (Hseen b Hb) as [-> _]. }
    assert (Hmore : forall k, names_item w k -> names_item (w ++ [e]) k).
    { intros k (x & Hx & Hy & Hn). exists x. split; auto.
      apply in_or_app. now left. }
    rewrite accumulate_items_snoc.
    destruct (is_yang e) eqn:Hy.
    + (* a currency event leaves the dictionary alone *)
      split; [exact Hnd|]. split; [|split; [|exact Hold]].
      * intros k. rewrite Hkeys. split; [apply Hmore|].
        intros (x & Hx & Hxy & Hn). apply in_app_or in Hx.
        destruct Hx as [Hx|[<-|[]]]; [now exists x|congruence].
      * intros k v Hin. rewrite total_quantity_app. simpl.
        rewrite (Hvals k v Hin).
        destruct (String.eqb_spec (item e) k) as [Hk|_]; [|lia].
        exfalso. apply (in_map fst) in Hin. apply Hkeys in Hin.
        destruct Hin as (x & _ & Hxy & Hn). simpl in Hn.
        apply is_yang_name in Hy.
        assert (is_yang x = true) by (apply is_yang_name; congruence).
        congruence.
    + destruct (in_dec string_dec (item e) (map fst (accumulate_items w)))
        as [Hin|Hout].
      * (* a name seen before: its entry grows in place *)
        rewrite (dict_add_present _ _ _ Hin).
        split; [exact Hnd|]. split; [|split; [|exact Hold]].
        -- intros k. rewrite Hkeys. split; [apply Hmore|].
           intros (x & Hx & Hxy & Hn). apply in_app_or in Hx.
           destruct Hx as [Hx|[<-|[]]]; [now exists x|].
           apply Hkeys. now rewrite <- Hn.
        -- intros k v Hkv. rewrite total_quantity_app. simpl.
           apply (dict_add_entries _ _ _ Hnd) in Hkv.
           destruct Hkv as [[Hne Hkv]|[(-> & v0 & Hkv & ->)|(-> & Hno & _)]].
           ++ rewrite (Hvals k v Hkv).
              destruct (String.eqb_spec (item e) k); [congruence|lia].
           ++ rewrite (Hvals _ v0 Hkv), String.eqb_refl. lia.
           ++ contradiction.
      * (* a new name goes to the end *)
        rewrite (dict_add_absent _ _ _ Hout), map_app. simpl.
        assert (Hnew : forall x, In x w -> item x <> item e).
        { intros x Hx Heq. apply Hout, Hkeys. exists x.
          repeat split; auto. unfold is_yang in *. now rewrite Heq. }
        split; [|split; [|split]].
        -- apply Permutation_NoDup with (l := item e :: map fst (accumulate_items w)).
           ++ apply Permutation_cons_append.
           ++ now constructor.
        -- intros k. rewrite in_app_iff. simpl. split.
           ++ intros [Hk|[<-|[]]]; [apply Hmore; now apply Hkeys|].
              exists e. repeat split; auto. apply in_or_app. simpl; auto.
           ++ intros (x & Hx & Hxy & Hn). apply in_app_or in Hx.
              destruct Hx as [Hx|[<-|[]]]; [|now right; left].
              left. apply Hkeys. now exists x.
        -- intros k v Hkv. rewrite total_quantity_app. simpl.
           apply in_app_or in Hkv. destruct Hkv as [Hkv|[[= <- <-]|[]]].
           ++ rewrite (Hvals k v Hkv).
              destruct (String.eqb_spec (item e) k) as [Hk|_]; [|lia].
              exfalso. apply Hout. rewrite Hk. now apply (in_map fst) in Hkv.
           ++ rewrite String.eqb_refl.
              assert (Hz : total_quantity (item e) w = 0).
              { clear - Hnew. induction w as [|x w IH]; simpl; auto.
                destruct (String.eqb_spec (item x) (item e)) as [Hx|_].
                - exfalso. apply (Hnew x); simpl; auto.
                - rewrite IH; auto. intros y Hy. apply Hnew. now right. }
              lia.
        -- apply StronglySorted_snoc; [exact Hold|].
           apply Forall_forall. intros a Ha.
           destruct (Hseen a Ha) as [-> Hlt].
           rewrite (first_seen_absent _ _ _ Hnew). lia.
Qed.

(** ** Sorting the rows *)

Lemma insert_desc_perm (x : item_stat) (l : list item_stat) :
  Permutation (x :: l) (insert_desc x l).
Proof.
  induction l as [|y l IH]; simpl; auto.
  destruct (stat_qty x <? stat_qty y); auto.
  rewrite perm_swap. now constructor.
Qed.

Lemma sort_desc_perm (l : list item_stat) : Permutation l (sort_desc l).
Proof.
  induction l as [|x l IH]; simpl; auto.
  rewrite <- insert_desc_perm. now constructor.
Qed.

Section Ranking.

Variable w : list LootEvent.

Lemma ranked_before_qty (a b : item_stat) :
  ranked_before w a b -> stat_qty b <= stat_qty a.
Proof. unfold ranked_before. lia. Qed.

Lemma insert_desc_ranked (x : item_stat) (l : list item_stat) :
  StronglySorted (ranked_before w) l ->
  Forall (seen_first w x) l ->
  StronglySorted (ranked_before w) (insert_desc x l).
Proof.
  induction l as [|y l IH]; simpl; intros Hs Hx.
  - repeat constructor.
  - inversion Hs as [|? ? Hs' Hy]; subst.
    inversion Hx as [|? ? Hxy Hx']; subst.
    destruct (Z.ltb_spec (stat_qty x) (stat_qty y)) as [Hlt|Hge].
    + constructor; auto.
      apply (Permutation_Forall (insert_desc_perm x l)).
      constructor; auto. now left.
    + constructor; auto.
      assert (Hrank : forall z, seen_first w x z -> stat_qty z <= stat_qty y ->
                                ranked_before w x z).
      { intros z Hz Hq. unfold ranked_before.
        destruct (Z.eq_dec (stat_qty x) (stat_qty z)); [right|left]; auto.
        lia. }
      constructor; [apply Hrank; auto; lia|].
      rewrite Forall_forall in Hy, Hx' |- *. intros z Hz.
      apply Hrank; auto. now apply ranked_before_qty, Hy.
Qed.

(** Rows in first-seen order come out of the sort by descending quantity,
    rows of equal quantity still in first-seen order. *)
Lemma sort_desc_ranked (l : list item_stat) :
  StronglySorted (seen_first w) l ->
  StronglySorted (ranked_before w) (sort_desc l).
Proof.
  induction 1 as [|x l Hs IH Hx]; simpl.
  - constructor.
  - apply insert_desc_ranked; auto.
    now apply (Permutation_Forall (sort_desc_perm l)).
Qed.

End Ranking.

Lemma rows_of_names (hours : Q) (d : list (string * Z)) :
  map stat_name (rows_of hours d) = map fst d.
Proof.
  unfold rows_of. rewrite map_map. now apply map_ext.
Qed.

Lemma rows_of_entries (hours : Q) (d : list (string * Z)) (x : item_stat) :
  In x (rows_of hours d) ->
  In (stat_name x, stat_qty x) d /\
  stat_per_hour x = py_round (inject_Z (stat_qty x) / hours)%Q.
Proof.
  unfold rows_of. rewrite in_map_iff. intros ([k v] & <- & Hin). now split.
Qed.

(** C5. Item ordering. The [items] of the snapshot of a window that is not
    empty hold one row per item name that is not currency, each with the
    total quantity of that name in the window, sorted by descending total
    quantity; of two rows with equal totals the one whose
    name appeared first in the window comes first. *)
Theorem items_ordering (self : LiveMonitorWorker) (Hne : window self <> []) :
  exists s,
    compute_stats_from_window self = (Ok (Some s), self) /\
    NoDup (map stat_name (items s)) /\
    (forall name,
        In name (map stat_name (items s)) <-> names_item (window self) name) /\
    (forall x,
        In x (items s) ->
        stat_qty x = total_quantity (stat_name x) (window self)) /\
    StronglySorted (ranked_before (window self)) (items s).
Proof.
  destruct (window self) as [|first rest] eqn:Hw; [contradiction|].
  rewrite <- Hw.
  exists (snapshot_of first (window self)).
  split; [now apply (compute_stats_nonempty self first rest)|].
  destruct (accumulate_items_spec (window self)) as (Hnd & Hkeys & Hvals & Hord).
  unfold snapshot_of. cbn [items hours].
  set (h := (inject_Z _ / 3600)%Q).
  pose proof (sort_desc_perm (rows_of h (accumulate_items (window self)))) as Hp.
  split; [|split; [|split]].
  - apply (Permutation_NoDup (Permutation_map stat_name Hp)).
    now rewrite rows_of_names.
  - intros name. rewrite <- Hkeys, <- (rows_of_names h).
    split; apply Permutation_in; [symmetry|];
      now apply Permutation_map.
  - intros x Hx. apply (Permutation_in _ (Permutation_sym Hp)) in Hx.
    apply rows_of_entries in Hx. destruct Hx as [Hin _].
    now apply Hvals.
  - apply sort_desc_ranked.
    apply (StronglySorted_map stat_name
             (fun a b => (first_seen a (window self)
                          < first_seen b (window self))%nat)).
    now rewrite rows_of_names.
Qed.

(** The worked case of C5: 30 of A, then 50 of B, then 50 of C. *)
Example items_ordering_example :
  let t := mkdt 2025 11 24 10 0 0 in
  let w := add_events (new_worker 60 5 false)
             [mkLootEvent t 30 "A"; mkLootEvent t 50 "B"; mkLootEvent t 50 "C"] in
  option_map (fun s => map (fun x => (stat_name x, stat_qty x)) (items s))
             (match fst (compute_stats_from_window w) with
              | Ok r => r
              | Raise _ => None
              end)
  = Some [("B"%string, 50); ("C"%string, 50); ("A"%string, 30)].
Proof. vm_compute. reflexivity. Qed.

(** ** The matcher *)

Section Matcher.

Context {R : Type}.

Lemma consumed_app (x s' : str) : consumed (x ++ s') s' = x.
Proof.
  unfold consumed. rewrite length_app.
  replace (List.length x + List.length s' - List.length s')%nat
    with (List.length x) by lia.
  now rewrite firstn_app, Nat.sub_diag, firstn_all, app_nil_r.
Qed.

Lemma times_iff (c : cclass) (n : nat) (k : str -> option R) (s : str)
    (r : R) :
  times c n k s = Some r <->
  exists q s', s = q ++ s' /\ List.length q = n /\
               forallb (cmatch c) q = true /\ k s' = Some r.
Proof.
  revert s. induction n as [|n IH]; intros s; simpl.
  - split.
    + intros H. exists [], s. auto.
    + intros (q & s' & -> & Hl & _ & H).
      apply length_zero_iff_nil in Hl. now subst.
  - destruct s as [|a s].
    + split; [discriminate|].
      intros (q & s' & Hs & Hl & _). destruct q; discriminate.
    + split.
      * destruct (cmatch c a) eqn:Ha; [|discriminate].
        intros H. apply IH in H. destruct H as (q & s' & -> & Hl & Hq & H).
        exists (a :: q), s'. simpl. rewrite Ha, Hq, Hl. auto.
      * intros (q & s' & Hs & Hl & Hq & H).
        destruct q as [|b q]; [discriminate|].
        simpl in Hs, Hl, Hq. injection Hs as <- ->.
        apply andb_prop in Hq. destruct Hq as [-> Hq].
        apply IH. exists q, s'. auto.
Qed.

(** A greedy run ends where the class stops matching. *)
Lemma plus_greedy_sound (c : cclass) (k : str -> option R) (s : str) (r : R) :
  plus_greedy c k s = Some r ->
  exists q s', s = q ++ s' /\ q <> [] /\
               forallb (cmatch c) q = true /\ k s' = Some r.
Proof.
  induction s as [|a s IH]; simpl; [discriminate|].
  destruct (cmatch c a) eqn:Ha; [|discriminate].
  destruct (plus_greedy c k s) as [r'|] eqn:Hg.
  - intros [= ->]. destruct (IH eq_refl) as (q & s' & -> & _ & Hq & H).
    exists (a :: q), s'. simpl. rewrite Ha, Hq. repeat split; auto.
    discriminate.
  - intros H. exists [a], s. simpl. rewrite Ha. repeat split; auto.
    discriminate.
Qed.

Lemma plus_greedy_stop (c : cclass) (k : str -> option R) (s : str) :
  match s with [] => True | a :: _ => cmatch c a = false end ->
  plus_greedy c k s = None.
Proof. destruct s as [|a s]; simpl; auto. now intros ->. Qed.

Lemma plus_greedy_complete (c : cclass) (k : str -> option R)
    (q s' : str) (r : R) :
  q <> [] -> forallb (cmatch c) q = true ->
  match s' with [] => True | a :: _ => cmatch c a = false end ->
  k s' = Some r ->
  plus_greedy c k (q ++ s') = Some r.
Proof.
  intros Hne Hq Hstop Hk. induction q as [|a q IH]; [contradiction|].
  simpl in Hq |- *. apply andb_prop in Hq. destruct Hq as [-> Hq].
  destruct q as [|b q].
  - simpl. now rewrite (plus_greedy_stop c k s' Hstop).
  - rewrite IH; auto. discriminate.
Qed.

(** A lazy run ends at the first place where the rest of the pattern
    matches. *)
Lemma plus_lazy_sound (c : cclass) (k : str -> option R) (s : str) (r : R) :
  plus_lazy c k s = Some r ->
  exists a q s', s = a :: q ++ s' /\
                 forallb (cmatch c) (a :: q) = true /\ k s' = Some r /\
                 forall q1 b q2, q = q1 ++ b :: q2 -> k (b :: q2 ++ s') = None.
Proof.
  induction s as [|a s IH]; simpl; [discriminate|].
  destruct (cmatch c a) eqn:Ha; [|discriminate].
  destruct (k s) as [r'|] eqn:Hk.
  - intros [= ->]. exists a, [], s. simpl. rewrite Ha. repeat split; auto.
    intros q1 b q2 H. now destruct q1.
  - intros H. destruct (IH H) as (b & q & s' & -> & Hq & Hr & Hfirst).
    exists a, (b :: q), s'. split; [reflexivity|].
    split; [simpl in *; now rewrite Ha|]. split; [exact Hr|].
    intros q1 x q2 Hsplit. destruct q1 as [|y q1]; simpl in Hsplit.
    + injection Hsplit as <- <-. exact Hk.
    + injection Hsplit as <- ->. now apply (Hfirst q1 x q2).
Qed.

Lemma plus_lazy_complete (c : cclass) (k : str -> option R)
    (a : code) (q s' : str) (r : R) :
  forallb (cmatch c) (a :: q) = true ->
  k s' = Some r ->
  (forall q1 b q2, q = q1 ++ b :: q2 -> k (b :: q2 ++ s') = None) ->
  plus_lazy c k (a :: q ++ s') = Some r.
Proof.
  revert a. induction q as [|b q IH]; intros a Hq Hk Hfirst.
  - simpl in *. apply andb_prop in Hq. destruct Hq as [-> _]. now rewrite Hk.
  - simpl in Hq. apply andb_prop in Hq. destruct Hq as [Ha Hq].
    change (plus_lazy c k (a :: (b :: q) ++ s'))
      with (if cmatch c a
            then match k ((b :: q) ++ s') with
                 | Some r => Some r
                 | None => plus_lazy c k (b :: q ++ s')
                 end
            else None).
    rewrite Ha. simpl app. rewrite (Hfirst [] b q eq_refl).
    apply IH; auto.
    intros q1 x q2 ->. apply (Hfirst (b :: q1) x q2). reflexivity.
Qed.

(** A literal matches itself and nothing else. *)
Lemma rmatch_lit (cs : str) (k : str -> list str -> option R) (s : str)
    (g : list str) (r : R) :
  rmatch (lit cs) k s g = Some r <->
  exists s', s = cs ++ s' /\ k s' g = Some r.
Proof.
  revert s. induction cs as [|c cs IH]; intros s.
  - simpl. split; [intros H; now exists s|now intros (s' & -> & H)].
  - assert (Hone : forall k', times (Chr c) 1 k' s = Some r <->
              exists s', s = c :: s' /\ k' s' = Some r).
    { intros k'. simpl. destruct s as [|a s].
      - split; [discriminate|]. now intros (s' & Hs & _).
      - destruct (N.eqb_spec c a) as [<-|Hne].
        + split; [intros H; now exists s|].
          now intros (s' & [= <-] & H).
        + split; [discriminate|]. intros (s' & [= Hs _] & _). congruence. }
    destruct cs as [|c' cs].
    + apply Hone.
    + change (rmatch (lit (c :: c' :: cs)) k s g)
        with (times (Chr c) 1 (fun s' => rmatch (lit (c' :: cs)) k s' g) s).
      rewrite Hone. split.
      * intros (s1 & -> & H). apply IH in H. destruct H as (s' & -> & H).
        now exists s'.
      * intros (s' & -> & H). exists ((c' :: cs) ++ s'). split; auto.
        apply IH. now exists s'.
Qed.

End Matcher.

Lemma rmatch_cat {R : Type} (r1 r2 : regex) (k : str -> list str -> option R)
    (s : str) (g : list str) :
  rmatch (r1 ~ r2) k s g = rmatch r1 (rmatch r2 k) s g.
Proof. reflexivity. Qed.

Lemma rmatch_group {R : Type} (r1 : regex) (k : str -> list str -> option R)
    (s : str) (g : list str) :
  rmatch (Group r1) k s g
  = rmatch r1 (fun s' g' => k s' (g' ++ [consumed s s'])) s g.
Proof. reflexivity. Qed.

Lemma rmatch_plus {R : Type} (c : cclass) (k : str -> list str -> option R)
    (s : str) (g : list str) :
  rmatch (Plus c) k s g = plus_greedy c (fun s' => k s' g) s.
Proof. reflexivity. Qed.

Lemma rmatch_plus_lazy {R : Type} (c : cclass)
    (k : str -> list str -> option R) (s : str) (g : list str) :
  rmatch (PlusLazy c) k s g = plus_lazy c (fun s' => k s' g) s.
Proof. reflexivity. Qed.

Lemma rmatch_lit_fails {R : Type} (c b : code)
    (k : str -> list str -> option R) (s : str) (g : list str) :
  b <> c -> rmatch (lit [c]) k (b :: s) g = None.
Proof.
  intros Hne. destruct (rmatch (lit [c]) k (b :: s) g) as [r|] eqn:E; auto.
  apply rmatch_lit in E. destruct E as (s' & [= Hb _] & _). contradiction.
Qed.

Lemma is_triple_inv (sep : ascii) (t : str) :
  is_triple sep t = true ->
  exists a b c d e f,
    t = [a; b; N_of_ascii sep; c; d; N_of_ascii sep; e; f] /\
    forallb is_decimal [a; b; c; d; e; f] = true.
Proof.
  destruct t as [|a [|b [|s1 [|c [|d [|s2 [|e [|f [|? ?]]]]]]]]];
    try discriminate.
  unfold is_triple. intros H.
  apply andb_prop in H. destruct H as [H H2].
  apply andb_prop in H. destruct H as [H H1].
  apply N.eqb_eq in H1, H2. subst s1 s2.
  now exists a, b, c, d, e, f.
Qed.

Lemma rmatch_triple {R : Type} (sep : ascii) (k : str -> list str -> option R)
    (s : str) (g : list str) (r : R) :
  rmatch (triple sep) k s g = Some r <->
  exists t s', s = t ++ s' /\ is_triple sep t = true /\
               k s' (g ++ [t]) = Some r.
Proof.
  unfold triple. rewrite rmatch_group. split.
  - intros H. cbn [rmatch] in H.
    apply times_iff in H. destruct H as (q1 & s1 & E1 & L1 & D1 & H).
    apply times_iff in H. destruct H as (p1 & s2 & -> & M1 & C1 & H).
    apply times_iff in H. destruct H as (q2 & s3 & -> & L2 & D2 & H).
    apply times_iff in H. destruct H as (p2 & s4 & -> & M2 & C2 & H).
    apply times_iff in H. destruct H as (q3 & s5 & -> & L3 & D3 & H).
    destruct q1 as [|a [|b [|? ?]]]; try discriminate.
    destruct p1 as [|x1 [|? ?]]; try discriminate.
    destruct q2 as [|c [|d [|? ?]]]; try discriminate.
    destruct p2 as [|x2 [|? ?]]; try discriminate.
    destruct q3 as [|e [|f [|? ?]]]; try discriminate.
    exists [a; b; x1; c; d; x2; e; f], s5.
    subst s. split; [reflexivity|].
    change ([a; b] ++ [x1] ++ [c; d] ++ [x2] ++ [e; f] ++ s5)
      with ([a; b; x1; c; d; x2; e; f] ++ s5) in H.
    rewrite consumed_app in H. split; [|exact H].
    cbn [forallb cmatch] in *. unfold is_triple. cbn [forallb].
    split_andb.
    repeat match goal with
           | Hx : is_decimal _ = true |- _ => rewrite Hx; clear Hx
           | Hx : N.eqb _ _ = true |- _ => rewrite Hx; clear Hx
           end.
    reflexivity.
  - intros (t & s' & -> & Ht & H).
    destruct (is_triple_inv sep t Ht) as (a & b & c & d & e & f & -> & Hd).
    cbn [forallb] in Hd.
    split_andb.
    cbn [rmatch times cmatch app].
    repeat match goal with
           | Hx : is_decimal _ = true |- _ => rewrite Hx; clear Hx
           end.
    rewrite N.eqb_refl.
    change (a :: b :: N_of_ascii sep :: c :: d :: N_of_ascii sep :: e :: f :: s')
      with ([a; b; N_of_ascii sep; c; d; N_of_ascii sep; e; f] ++ s').
    now rewrite consumed_app.
Qed.

Lemma is_item_inv (i : str) :
  is_item i = true <->
  exists a q, i = a :: q /\ forallb (cmatch Dot) (a :: q) = true /\
              forall q1 b q2, q = q1 ++ b :: q2 -> b <> 46%N.
Proof.
  destruct i as [|a q]; cbn [is_item forallb].
  - split; [discriminate|]. now intros (a & q & H & _).
  - split.
    + intros H. apply andb_prop in H. destruct H as [Ha Hq].
      exists a, q. split; [reflexivity|].
      rewrite forallb_forall in Hq. split.
      * rewrite Ha. apply forallb_forall. intros x Hx.
        apply Hq in Hx. now apply andb_prop in Hx.
      * intros q1 b q2 -> ->.
        specialize (Hq 46%N (in_elt _ _ _)).
        apply andb_prop in Hq. destruct Hq as [_ Hq]. discriminate.
    + intros (a' & q' & [= <- <-] & Hall & Hdot).
      apply andb_prop in Hall. destruct Hall as [-> Hq]. cbn [andb].
      apply forallb_forall. intros x Hx.
      rewrite forallb_forall in Hq. rewrite (Hq x Hx). cbn [andb].
      apply in_split in Hx. destruct Hx as (q1 & q2 & ->).
      destruct (N.eqb_spec 46 x) as [<-|]; auto.
      now destruct (Hdot q1 46%N q2 eq_refl).
Qed.

(** ** [LOG_LINE_RE] *)

Lemma LOG_LINE_RE_groups :
  LOG_LINE_RE
  = L "[" ~ triple "/" ~ L "] [" ~ triple ":" ~ L "]: You receive "
    ~ Group (Plus Digit) ~ L " " ~ Group (PlusLazy Dot) ~ L ".".
Proof. reflexivity. Qed.

Lemma is_quantity_inv (q : str) :
  is_quantity q = true <-> q <> [] /\ forallb is_decimal q = true.
Proof.
  destruct q as [|a q]; cbn [is_quantity].
  - split; [discriminate|]. now intros [H _].
  - split; [intros H; split; [discriminate|exact H]|now intros [_ H]].
Qed.

(** A match at the start of [s] is a loot record, and its groups are the
    four parts of the record. *)
Lemma match_here_sound (s : str) (g : list str) :
  match_here LOG_LINE_RE s = Some g ->
  exists D Tm Q I, record_at s D Tm Q I /\ g = [D; Tm; Q; I].
Proof.
  unfold match_here. rewrite LOG_LINE_RE_groups. unfold L. intros H.
  rewrite rmatch_cat in H. apply rmatch_lit in H. destruct H as (s1 & -> & H).
  rewrite rmatch_cat in H. apply rmatch_triple in H.
  destruct H as (D & s2 & -> & HD & H).
  rewrite rmatch_cat in H. apply rmatch_lit in H. destruct H as (s3 & -> & H).
  rewrite rmatch_cat in H. apply rmatch_triple in H.
  destruct H as (Tm & s4 & -> & HT & H).
  rewrite rmatch_cat in H. apply rmatch_lit in H. destruct H as (s5 & -> & H).
  rewrite rmatch_cat, rmatch_group, rmatch_plus in H.
  apply plus_greedy_sound in H. destruct H as (Q & s6 & -> & HQ1 & HQ2 & H).
  cbv beta in H. rewrite consumed_app in H.
  rewrite rmatch_cat in H. apply rmatch_lit in H. destruct H as (s7 & -> & H).
  rewrite rmatch_cat, rmatch_group, rmatch_plus_lazy in H.
  apply plus_lazy_sound in H.
  destruct H as (a & q & s8 & -> & HI & H & Hfirst).
  cbv beta in H. change (a :: q ++ s8) with ((a :: q) ++ s8) in H.
  rewrite consumed_app in H.
  apply rmatch_lit in H. destruct H as (rest & -> & [= <-]).
  exists D, Tm, Q, (a :: q). split; [|reflexivity].
  split; [exact HD|]. split; [exact HT|].
  split; [now apply is_quantity_inv|]. split.
  - apply is_item_inv. exists a, q. split; [reflexivity|]. split; [exact HI|].
    intros q1 b q2 Hq ->. specialize (Hfirst q1 _ q2 Hq).
    match type of Hfirst with
    | ?m = None => assert (Hsome : exists r, m = Some r)
    end.
    { eexists. apply rmatch_lit. eexists. split; reflexivity. }
    destruct Hsome as (r & Hr). congruence.
  - exists rest. unfold record_text.
    rewrite <- !app_assoc. reflexivity.
Qed.

Lemma match_here_complete (s D Tm Q I : str) :
  record_at s D Tm Q I ->
  match_here LOG_LINE_RE s = Some [D; Tm; Q; I].
Proof.
  intros (HD & HT & HQ & HI & rest & ->).
  apply is_quantity_inv in HQ. destruct HQ as [HQ1 HQ2].
  apply is_item_inv in HI. destruct HI as (a & q & -> & HI & Hdot).
  unfold match_here, record_text. rewrite LOG_LINE_RE_groups. unfold L.
  rewrite <- !app_assoc.
  rewrite rmatch_cat. apply rmatch_lit. eexists. split; [reflexivity|].
  rewrite rmatch_cat. apply rmatch_triple.
  exists D. eexists. split; [reflexivity|]. split; [exact HD|].
  rewrite rmatch_cat. apply rmatch_lit. eexists. split; [reflexivity|].
  rewrite rmatch_cat. apply rmatch_triple.
  exists Tm. eexists. split; [reflexivity|]. split; [exact HT|].
  rewrite rmatch_cat. apply rmatch_lit. eexists. split; [reflexivity|].
  rewrite rmatch_cat, rmatch_group, rmatch_plus.
  apply plus_greedy_complete; auto; [reflexivity|].
  rewrite consumed_app.
  rewrite rmatch_cat. apply rmatch_lit. eexists. split; [reflexivity|].
  rewrite rmatch_cat, rmatch_group, rmatch_plus_lazy.
  rewrite <- app_comm_cons.
  apply plus_lazy_complete; auto.
  - change (a :: q ++ chars "." ++ rest)
      with ((a :: q) ++ chars "." ++ rest).
    rewrite consumed_app. apply rmatch_lit. eexists. split; reflexivity.
  - intros q1 b q2 Hq. apply rmatch_lit_fails. now apply (Hdot q1 b q2).
Qed.

Lemma match_here_none (s : str) :
  match_here LOG_LINE_RE s = None <-> ~ starts_record s.
Proof.
  split.
  - intros Hn (D & Tm & Q & I & Hrec).
    apply match_here_complete in Hrec. congruence.
  - intros Hno. destruct (match_here LOG_LINE_RE s) as [g|] eqn:E; auto.
    apply match_here_sound in E. destruct E as (D & Tm & Q & I & Hrec & _).
    exfalso. apply Hno. now exists D, Tm, Q, I.
Qed.

(** ** [search] *)

Lemma search_unfold (r : regex) (s : str) :
  search r s
  = match match_here r s with
    | Some g => Some g
    | None => match s with
              | _ :: s' => search r s'
              | [] => None
              end
    end.
Proof. now destruct s. Qed.

Lemma search_first (r : regex) (pre s : str) (g : list str) :
  match_here r s = Some g ->
  (forall p1 b p2, pre = p1 ++ b :: p2 -> match_here r (b :: p2 ++ s) = None) ->
  search r (pre ++ s) = Some g.
Proof.
  intros Hs. induction pre as [|b pre IH]; intros Hfirst.
  - simpl. rewrite search_unfold. now rewrite Hs.
  - rewrite search_unfold. simpl app.
    rewrite (Hfirst [] b pre eq_refl). apply IH.
    intros p1 c p2 ->. apply (Hfirst (b :: p1) c p2). reflexivity.
Qed.

Lemma search_nowhere (r : regex) (s : str) :
  (forall pre s', s = pre ++ s' -> match_here r s' = None) ->
  search r s = None.
Proof.
  induction s as [|a s IH]; intros Hno; rewrite search_unfold.
  - now rewrite (Hno [] [] eq_refl).
  - rewrite (Hno [] (a :: s) eq_refl). apply IH.
    intros pre s' ->. apply (Hno (a :: pre) s'). reflexivity.
Qed.

Lemma search_sound (r : regex) (s : str) (g : list str) :
  search r s = Some g ->
  exists pre s', s = pre ++ s' /\ match_here r s' = Some g.
Proof.
  induction s as [|a s IH]; rewrite search_unfold.
  - destruct (match_here r []) eqn:E; [|discriminate].
    intros [= <-]. now exists [], [].
  - destruct (match_here r (a :: s)) eqn:E.
    + intros [= <-]. now exists [], (a :: s).
    + intros H. destruct (IH H) as (pre & s' & -> & Hm).
      now exists (a :: pre), s'.
Qed.

(** ** [strptime] on a rendered date and time *)

Lemma digit_char_spec (n : Z) :
  0 <= n <= 9 -> is_digit (digit_char n) = true /\ digit_val (digit_char n) = n.
Proof.
  intros Hn.
  assert (Hall : forallb (fun k => is_digit (digit_char k)
                                   && (digit_val (digit_char k) =? k))
                         (map Z.of_nat (seq 0 10)) = true) by reflexivity.
  rewrite forallb_forall in Hall.
  assert (Hin : In n (map Z.of_nat (seq 0 10))).
  { rewrite <- (Z2Nat.id n) by lia. apply in_map, in_seq. lia. }
  apply Hall, andb_prop in Hin. destruct Hin as [Hd Hv].
  split; [exact Hd|]. now apply Z.eqb_eq.
Qed.

Lemma two_spec (n : Z) :
  0 <= n <= 99 ->
  exists a b, two n = [a; b] /\ is_digit a = true /\ is_digit b = true /\
              two_digits a b = n.
Proof.
  intros Hn. exists (digit_char (n / 10)), (digit_char (n mod 10)).
  assert (H1 : 0 <= n / 10 <= 9) by (Z.div_mod_to_equations; lia).
  assert (H2 : 0 <= n mod 10 <= 9) by (Z.div_mod_to_equations; lia).
  destruct (digit_char_spec _ H1) as [D1 V1].
  destruct (digit_char_spec _ H2) as [D2 V2].
  repeat split; auto.
  unfold two_digits. rewrite V1, V2. Z.div_mod_to_equations. lia.
Qed.

(** A check of the two characters of every number of a range gives the
    property for each of them. *)
Lemma two_checked (f : code -> code -> bool) (lo len : nat) :
  forallb (fun k => match codes (two (Z.of_nat k)) with
                    | [a; b] => f a b && (two_decimals a b =? Z.of_nat k)
                    | _ => false
                    end) (seq lo len) = true ->
  forall n, Z.of_nat lo <= n < Z.of_nat (lo + len) ->
    exists a b, codes (two n) = [a; b] /\ f a b = true /\ two_decimals a b = n.
Proof.
  intros Hall n Hn. rewrite forallb_forall in Hall.
  specialize (Hall (Z.to_nat n)). rewrite Z2Nat.id in Hall by lia.
  assert (Hin : In (Z.to_nat n) (seq lo len)) by (apply in_seq; lia).
  apply Hall in Hin. destruct (codes (two n)) as [|a [|b [|? ?]]];
    try discriminate.
  apply andb_prop in Hin. destruct Hin as [Hf Hv].
  exists a, b. split; [reflexivity|]. split; [exact Hf|now apply Z.eqb_eq].
Qed.

Lemma two_day (n : Z) :
  1 <= n <= 31 ->
  exists a b, codes (two n) = [a; b] /\ day_field a b = true /\
              two_decimals a b = n.
Proof. intros H. apply (two_checked day_field 1 31); [reflexivity|lia]. Qed.

Lemma two_month (n : Z) :
  1 <= n <= 12 ->
  exists a b, codes (two n) = [a; b] /\ month_field a b = true /\
              two_decimals a b = n.
Proof. intros H. apply (two_checked month_field 1 12); [reflexivity|lia]. Qed.

Lemma two_year (n : Z) :
  0 <= n <= 99 ->
  exists a b, codes (two n) = [a; b] /\ year_field a b = true /\
              two_decimals a b = n.
Proof. intros H. apply (two_checked year_field 0 100); [reflexivity|lia]. Qed.

Lemma two_hour (n : Z) :
  0 <= n <= 23 ->
  exists a b, codes (two n) = [a; b] /\ hour_field a b = true /\
              two_decimals a b = n.
Proof. intros H. apply (two_checked hour_field 0 24); [reflexivity|lia]. Qed.

Lemma two_minute (n : Z) :
  0 <= n <= 59 ->
  exists a b, codes (two n) = [a; b] /\ minute_field a b = true /\
              two_decimals a b = n.
Proof. intros H. apply (two_checked minute_field 0 60); [reflexivity|lia]. Qed.

Lemma two_second (n : Z) :
  0 <= n <= 59 ->
  exists a b, codes (two n) = [a; b] /\ second_field a b = true /\
              two_decimals a b = n.
Proof. intros H. apply (two_checked second_field 0 60); [reflexivity|lia]. Qed.

Lemma days_in_month_max (y m : Z) : days_in_month y m <= 31.
Proof.
  unfold days_in_month. destruct (_ && _); [lia|].
  destruct (Z.to_nat m) as [|[|[|[|[|[|[|[|[|[|[|[|[|[|?]]]]]]]]]]]]]];
    simpl; lia.
Qed.

Lemma valid_ranges (d : datetime) :
  valid d = true ->
  1 <= month d <= 12 /\ 1 <= day d <= 31 /\ 0 <= hour d <= 23 /\
  0 <= minute d <= 59 /\ 0 <= second d <= 59.
Proof.
  unfold valid. intros H.
  split_andb.
  repeat match goal with
         | Hx : (_ <=? _) = true |- _ => apply Z.leb_le in Hx
         end.
  pose proof (days_in_month_max (year d) (month d)). lia.
Qed.

Lemma is_triple_two (sep : ascii) (x y z : Z) :
  0 <= x <= 99 -> 0 <= y <= 99 -> 0 <= z <= 99 ->
  is_triple sep (codes (two x ++ [sep] ++ two y ++ [sep] ++ two z)) = true.
Proof.
  intros Hx Hy Hz. unfold codes. rewrite !map_app. fold (codes (two x)).
  fold (codes (two y)). fold (codes (two z)).
  destruct (two_year x Hx) as (a & b & -> & Hab & _).
  destruct (two_year y Hy) as (c & d & -> & Hcd & _).
  destruct (two_year z Hz) as (e & f & -> & Hef & _).
  unfold year_field in Hab, Hcd, Hef. split_andb.
  cbn [app map is_triple forallb].
  repeat match goal with
         | Hd : is_decimal _ = true |- _ => rewrite Hd; clear Hd
         end.
  now rewrite N.eqb_refl.
Qed.

(** Parsing the rendered fields gives the fields back, the year through the
    century rule, when they form a date and time of the calendar. *)
Lemma parse_datetime_rendered (dd mm yy HH MM SS : Z) :
  0 <= yy <= 99 ->
  valid (mkdt (pivot_year yy) mm dd HH MM SS) = true ->
  parse_datetime_from_log (codes (date_text dd mm yy))
                          (codes (time_text HH MM SS))
  = Ok (mkdt (pivot_year yy) mm dd HH MM SS).
Proof.
  intros Hy Hv. pose proof (valid_ranges _ Hv) as Hr.
  cbn [month day hour minute second] in Hr.
  destruct (two_day dd ltac:(lia)) as (d1 & d2 & Ed & Fd & Vd).
  destruct (two_month mm ltac:(lia)) as (m1 & m2 & Em & Fm & Vm).
  destruct (two_year yy Hy) as (y1 & y2 & Ey & Fy & Vy).
  destruct (two_hour HH ltac:(lia)) as (h1 & h2 & Eh & Fh & Vh).
  destruct (two_minute MM ltac:(lia)) as (i1 & i2 & Ei & Fi & Vi).
  destruct (two_second SS ltac:(lia)) as (s1 & s2 & Es & Fs & Vs).
  unfold parse_datetime_from_log, date_text, time_text, codes.
  rewrite !map_app.
  fold (codes (two dd)). fold (codes (two mm)). fold (codes (two yy)).
  fold (codes (two HH)). fold (codes (two MM)). fold (codes (two SS)).
  rewrite Ed, Em, Ey, Eh, Ei, Es.
  change (strptime_dmy_HMS _)
    with (if forallb (N.eqb 47) [47%N; 47%N] && is_space 32%N
             && forallb (N.eqb 58) [58%N; 58%N]
             && day_field d1 d2 && month_field m1 m2 && year_field y1 y2
             && hour_field h1 h2 && minute_field i1 i2 && second_field s1 s2
          then datetime_new (pivot_year (two_decimals y1 y2))
                 (two_decimals m1 m2) (two_decimals d1 d2)
                 (two_decimals h1 h2) (two_decimals i1 i2)
                 (two_decimals s1 s2)
          else Raise ValueError).
  rewrite Fd, Fm, Fy, Fh, Fi, Fs, Vd, Vm, Vy, Vh, Vi, Vs.
  cbn [forallb andb N.eqb Pos.eqb is_space].
  change (is_space 32%N) with true. cbn [andb].
  unfold datetime_new. now rewrite Hv.
Qed.

Lemma py_int_quantity (q : str) :
  is_quantity q = true ->
  py_int q = if (List.length q <=? max_str_digits)%nat
             then Ok (int_of_decimals q) else Raise ValueError.
Proof.
  destruct q as [|a q]; [discriminate|]. unfold is_quantity, py_int.
  now intros ->.
Qed.

(** ** [parse_log_line] *)




(** Only [ValueError] leaves [strptime]. *)
Lemma strptime_raises (s : str) (e : exn) :
  strptime_dmy_HMS s = Raise e -> e = ValueError.
Proof.
  unfold strptime_dmy_HMS, datetime_new. intros H.
  repeat match type of H with
         | match ?x with _ => _ end = _ => destruct x; try congruence
         | (if ?b then _ else _) = _ => destruct b; try congruence
         end.
Qed.

(** The outcomes of [parse_log_line]: no event, an event, or a
    [ValueError], of [strptime] on the date and time of the record found or
    of [int] on a quantity of more than 4300 digits. *)
Lemma parse_log_line_outcomes (line : string) :
  parse_log_line line = Ok None \/
  (exists ev, parse_log_line line = Ok (Some ev)) \/
  (parse_log_line line = Raise ValueError /\
   exists before D Tm Q I rest,
     chars line = before ++ record_text D Tm Q I ++ rest /\
     (parse_datetime_from_log D Tm = Raise ValueError \/
      (max_str_digits < List.length Q)%nat)).
Proof.
  unfold parse_log_line.
  destruct (search LOG_LINE_RE (chars line)) as [g|] eqn:E; [|now left].
  right. apply search_sound in E. destruct E as (before & s' & Hline & Hm).
  apply match_here_sound in Hm.
  destruct Hm as (D & Tm & Q & I & (_ & _ & HQ & _ & rest & ->) & ->).
  rewrite (py_int_quantity Q HQ).
  destruct (parse_datetime_from_log D Tm) as [t|e] eqn:Et; cbn [bind].
  - destruct (Nat.leb_spec (List.length Q) max_str_digits) as [Hle|Hgt].
    + left. now eexists.
    + right. split; [reflexivity|]. exists before, D, Tm, Q, I, rest.
      split; [exact Hline|now right].
  - right. pose proof (strptime_raises _ _ Et) as He. subst e.
    split; [reflexivity|]. exists before, D, Tm, Q, I, rest.
    split; [exact Hline|now left].
Qed.

(** C3 fails on the code. The digits of a date need not form a date of the
    calendar; [strptime] then raises [ValueError] and [parse_log_line] lets
    it through. *)
Theorem parse_log_line_raises :
  parse_log_line "[31/02/25] [10:00:00]: You receive 5 Yang."
  = Raise ValueError.
Proof. vm_compute. reflexivity. Qed.

(** ** Read failures in the tail loop *)

Lemma read_step_no_data (st : tail_state) :
  read_step (Ok ""%string) st = Ok (sleep st).
Proof. reflexivity. Qed.

(** C8 (amended). A turn that reads nothing (the empty string of
    [readline] at the end of the file) sleeps, leaves the window as it is and
    the loop goes on with the next turn. An exception raised by the read is
    not caught: the loop ends at that turn, the turns after it do not
    happen and nothing is sent to the consumer. A failure of [open] with
    [OSError] is sent to the consumer once and no turn happens. *)
Theorem read_failure_semantics :
  (forall now_ts st, exists st',
      iteration (Ok ""%string) now_ts st = Ok st' /\
      self st' = self st /\ idle st' = S (idle st) /\
      forall script, loop ((Ok ""%string, now_ts) :: script) st = loop script st')
  /\
  (forall e now_ts st script,
      loop ((Raise e, now_ts) :: script) st = Died e st)
  /\
  (forall w msg start_time script,
      run w (Raise (OSError msg)) start_time script
      = OpenFailed [ErrorMsg ("Cannot open log file: " ++ msg)]).
Proof.
  split; [|split].
  - intros now_ts st. unfold iteration. rewrite read_step_no_data. cbn [bind].
    destruct (report_step_cases now_ts (sleep st))
      as (st' & Hrep & Hself & Hidle & _).
    exists st'. split; [exact Hrep|]. split; [exact Hself|].
    split; [exact Hidle|].
    intros script. cbn [loop]. unfold iteration.
    rewrite read_step_no_data. cbn [bind]. now rewrite Hrep.
  - reflexivity.
  - reflexivity.
Qed.

(** C8 as stated fails: with a read error in the first turn the loop is
    over and the record of the second turn is never read, while with no
    data in the first turn the second turn reports it. *)
Lemma read_error_counterexample :
  let st := mkTail (new_worker 60 5 false) 0 [] 0 in
  let line := "[24/11/25] [10:00:00]: You receive 5 Yang."%string in
  loop [(Raise (OSError "Input/output error"), 1%Q); (Ok line, 6%Q)] st
  = Died (OSError "Input/output error") st /\
  exists st',
    loop [(Ok ""%string, 1%Q); (Ok line, 6%Q)] st = Stopped st' /\
    List.length (emitted st') = 1%nat /\
    List.length (window (self st')) = 1%nat.
Proof.
  split; [reflexivity|].
  eexists. split; [vm_compute; reflexivity|]. split; reflexivity.
Qed.

(** ** Uses of the theorems on concrete windows *)

Lemma window_invariant_exact_witness :
  let at_ := fun h mi => mkdt 2025 11 24 h mi 0 in
  let e1 := mkLootEvent (at_ 10 0) 5 "Yang" in
  let e2 := mkLootEvent (at_ 10 6) 7 "Iron Ore" in
  chronological ([e1] ++ [e2]) = true /\
  exists evicted,
    [e1] ++ [e2]
    = evicted ++ window (add_events (new_worker 5 1 true) ([e1] ++ [e2])) /\
    Forall (fun x => seconds_of e2 - 60 * 5 <= seconds_of x)
           (window (add_events (new_worker 5 1 true) ([e1] ++ [e2]))) /\
    Forall (fun x => seconds_of x < seconds_of e2 - 60 * 5) evicted.
Proof.
  intros at_ e1 e2. split; [reflexivity|].
  exact (proj1 (window_invariant_exact 5 1 true [e1] e2 eq_refl)).
Defined.

Lemma add_event_keeps_new_witness :
  let self := new_worker 0 1 true in
  let ev := mkLootEvent (mkdt 2025 11 24 10 0 0) 5 "Yang" in
  0 <= window_minutes self /\ window (add_event self ev) <> [].
Proof.
  intros self ev. split; [discriminate|].
  exact (proj1 (add_event_keeps_new self ev ltac:(discriminate))).
Defined.


Lemma items_ordering_witness :
  let t := mkdt 2025 11 24 10 0 0 in
  let self := add_events (new_worker 60 5 false)
                [mkLootEvent t 30 "A"; mkLootEvent t 50 "B";
                 mkLootEvent t 50 "C"] in
  window self <> [] /\
  exists s,
    compute_stats_from_window self = (Ok (Some s), self) /\
    StronglySorted (ranked_before (window self)) (items s).
Proof.
  intros t self. split; [discriminate|].
  destruct (items_ordering self ltac:(discriminate)) as (s & H1 & _ & _ & _ & H2).
  exists s. split; assumption.
Defined.

(** * Further properties of the code *)

(** ** Code points and UTF-8 *)

(** Whatever is decoded stands for a character. *)
Lemma decode_bytes_scalar (bs : list N) :
  forallb Utf8.scalar (Utf8.decode_bytes bs) = true.
Proof.
  assert (H : forall n bs, (List.length bs <= n)%nat ->
                           forallb Utf8.scalar (Utf8.decode_bytes bs) = true).
  { clear bs. induction n as [|n IH]; intros bs Hn.
    - destruct bs; [reflexivity|simpl in Hn; lia].
    - destruct bs as [|b0 r0]; [reflexivity|]. simpl in Hn.
      cbn [Utf8.decode_bytes].
      destruct (N.ltb_spec b0 128) as [H0|H0].
      { cbn [forallb]. rewrite IH by lia. unfold Utf8.scalar. lia. }
      destruct r0 as [|b1 r1]; [reflexivity|]. simpl in Hn.
      destruct (Utf8.lead2 b0 b1) eqn:H2.
      { cbn [forallb]. rewrite IH by lia.
        unfold Utf8.lead2, Utf8.continuation in H2. unfold Utf8.scalar. lia. }
      destruct r1 as [|b2 r2]; [apply IH; simpl; lia|]. simpl in Hn.
      destruct (Utf8.lead3 b0 b1 b2) eqn:H3.
      { cbn [forallb]. rewrite IH by lia.
        unfold Utf8.lead3, Utf8.continuation in H3. unfold Utf8.scalar. lia. }
      destruct r2 as [|b3 r3]; [apply IH; simpl; lia|]. simpl in Hn.
      destruct (Utf8.lead4 b0 b1 b2 b3) eqn:H4; [|apply IH; simpl; lia].
      cbn [forallb]. rewrite IH by lia.
      unfold Utf8.lead4, Utf8.continuation in H4. unfold Utf8.scalar. lia. }
  now apply (H (List.length bs)).
Qed.

(** Decoding reads an encoded character back. *)
Lemma decode_encode_code (c : code) (bs : list N) :
  Utf8.scalar c = true ->
  Utf8.decode_bytes (Utf8.encode_code c ++ bs) = c :: Utf8.decode_bytes bs.
Proof.
  unfold Utf8.scalar, Utf8.encode_code. intros Hc.
  destruct (N.ltb_spec c 128) as [H1|H1].
  { cbn [app Utf8.decode_bytes]. now apply N.ltb_lt in H1 as ->. }
  destruct (N.ltb_spec c 2048) as [H2|H2].
  { cbn [app Utf8.decode_bytes].
    replace (192 + c / 64 <? 128)%N with false by lia.
    replace (Utf8.lead2 (192 + c / 64) (128 + c mod 64)) with true
      by (unfold Utf8.lead2, Utf8.continuation; lia).
    apply (f_equal2 (@cons N)); [lia|reflexivity]. }
  destruct (N.ltb_spec c 65536) as [H3|H3].
  { cbn [app Utf8.decode_bytes].
    replace (224 + c / 4096 <? 128)%N with false by lia.
    replace (Utf8.lead2 (224 + c / 4096) (128 + (c / 64) mod 64)) with false
      by (unfold Utf8.lead2, Utf8.continuation; lia).
    replace (Utf8.lead3 (224 + c / 4096) (128 + (c / 64) mod 64)
               (128 + c mod 64)) with true
      by (unfold Utf8.lead3, Utf8.continuation; lia).
    apply (f_equal2 (@cons N)); [lia|reflexivity]. }
  cbn [app Utf8.decode_bytes].
  replace (240 + c / 262144 <? 128)%N with false by lia.
  replace (Utf8.lead2 (240 + c / 262144) (128 + (c / 4096) mod 64))
    with false by (unfold Utf8.lead2, Utf8.continuation; lia).
  replace (Utf8.lead3 (240 + c / 262144) (128 + (c / 4096) mod 64)
             (128 + (c / 64) mod 64)) with false
    by (unfold Utf8.lead3, Utf8.continuation; lia).
  replace (Utf8.lead4 (240 + c / 262144) (128 + (c / 4096) mod 64)
             (128 + (c / 64) mod 64) (128 + c mod 64)) with true
    by (unfold Utf8.lead4, Utf8.continuation; lia).
  apply (f_equal2 (@cons N)); [lia|reflexivity].
Qed.

Lemma encode_code_bytes (c : code) :
  Utf8.scalar c = true ->
  Utf8.encode_code c <> [] /\
  Forall (fun b => (b < 256)%N) (Utf8.encode_code c).
Proof.
  unfold Utf8.scalar, Utf8.encode_code. intros Hc.
  destruct (N.ltb_spec c 128); [split; [discriminate|repeat constructor; lia]|].
  destruct (N.ltb_spec c 2048); [split; [discriminate|repeat constructor; lia]|].
  destruct (N.ltb_spec c 65536); split; try discriminate;
    repeat constructor; lia.
Qed.

Lemma bytes_of_ascii (l : list N) :
  Forall (fun b => (b < 256)%N) l ->
  map N_of_ascii (list_ascii_of_string (string_of_list_ascii (map ascii_of_N l)))
  = l.
Proof.
  intros Hl. rewrite list_ascii_of_string_of_list_ascii, map_map.
  induction Hl as [|b l Hb Hl IH]; [reflexivity|].
  cbn [map]. now rewrite IH, N_ascii_embedding.
Qed.

(** The code points of an encoded text are the text. *)
Lemma chars_encode (t : str) :
  forallb Utf8.scalar t = true -> chars (Utf8.encode t) = t.
Proof.
  intros Ht. unfold chars, Utf8.decode, Utf8.encode.
  rewrite bytes_of_ascii.
  - induction t as [|c t IH]; [reflexivity|].
    cbn [forallb] in Ht. apply andb_prop in Ht. destruct Ht as [Hc Ht].
    cbn [flat_map]. rewrite (decode_encode_code c _ Hc). now rewrite IH.
  - induction t as [|c t IH]; [constructor|].
    cbn [forallb] in Ht. apply andb_prop in Ht. destruct Ht as [Hc Ht].
    cbn [flat_map]. apply Forall_app. split; [|now apply IH].
    now apply encode_code_bytes.
Qed.

Lemma chars_scalar (s : string) : forallb Utf8.scalar (chars s) = true.
Proof. apply decode_bytes_scalar. Qed.

Lemma forallb_app_l {A : Type} (f : A -> bool) (l1 l2 : list A) :
  forallb f (l1 ++ l2) = true -> forallb f l1 = true.
Proof. rewrite forallb_app. intros H. now apply andb_prop in H. Qed.

Lemma forallb_app_r {A : Type} (f : A -> bool) (l1 l2 : list A) :
  forallb f (l1 ++ l2) = true -> forallb f l2 = true.
Proof. rewrite forallb_app. intros H. now apply andb_prop in H. Qed.

(** ** What the parser returns *)

Lemma is_digit_val (a : ascii) :
  is_digit a = true -> 0 <= digit_val a <= 9.
Proof.
  unfold is_digit, digit_val. intros H. apply andb_prop in H.
  destruct H as [H1 H2]. apply Nat.leb_le in H1, H2. lia.
Qed.

(** A decimal digit is one of the ten of its block. *)
Lemma decimal_spec (c : code) (v : Z) :
  decimal c = Some v ->
  0 <= v <= 9 /\ In (c - Z.to_N v)%N decimal_zeros.
Proof.
  unfold decimal.
  match goal with
  | |- context [find ?f ?l] => destruct (find f l) as [z|] eqn:Hf
  end; [|discriminate].
  apply find_some in Hf. destruct Hf as [Hin Hz]. intros [= <-].
  split; [lia|]. replace (c - Z.to_N (Z.of_N (c - z)))%N with z by lia.
  exact Hin.
Qed.

Lemma decimal_val_range (c : code) : 0 <= decimal_val c <= 9.
Proof.
  unfold decimal_val. destruct (decimal c) as [v|] eqn:Hd; [|lia].
  now apply decimal_spec in Hd.
Qed.

Lemma int_of_decimals_nonneg (s : str) : 0 <= int_of_decimals s.
Proof.
  unfold int_of_decimals.
  assert (H : forall acc, 0 <= acc ->
                0 <= fold_left (fun x a => 10 * x + decimal_val a) s acc).
  { induction s as [|a s IH]; intros acc Hacc; cbn [fold_left]; auto.
    apply IH. pose proof (decimal_val_range a). lia. }
  apply H. lia.
Qed.

Lemma pivot_year_range (a b : code) :
  1969 <= pivot_year (two_decimals a b) <= 2068.
Proof.
  pose proof (decimal_val_range a). pose proof (decimal_val_range b).
  unfold pivot_year, two_decimals.
  destruct (Z.leb_spec (10 * decimal_val a + decimal_val b) 68); lia.
Qed.

(** What [strptime] accepts, field by field. *)
Lemma strptime_fields (s : str) (d : datetime) :
  strptime_dmy_HMS s = Ok d ->
  exists d1 d2 m1 m2 y1 y2 sp h1 h2 i1 i2 s1 s2,
    s = [d1; d2; 47; m1; m2; 47; y1; y2; sp; h1; h2; 58; i1; i2; 58; s1; s2]%N
    /\ valid d = true /\
    d = mkdt (pivot_year (two_decimals y1 y2)) (two_decimals m1 m2)
             (two_decimals d1 d2) (two_decimals h1 h2) (two_decimals i1 i2)
             (two_decimals s1 s2) /\
    hour_field h1 h2 = true /\ minute_field i1 i2 = true /\
    second_field s1 s2 = true.
Proof.
  intros H. unfold strptime_dmy_HMS in H.
  do 17 (destruct s as [|? s]; [discriminate H|]).
  destruct s; [|discriminate H].
  match type of H with
  | (if ?c then _ else _) = _ => destruct c eqn:Hc; [|discriminate H]
  end.
  unfold datetime_new in H.
  match type of H with
  | (if ?c then _ else _) = _ => destruct c eqn:Hv; [|discriminate H]
  end.
  injection H as <-. cbn [forallb] in Hc. split_andb.
  repeat match goal with
         | Hx : N.eqb _ _ = true |- _ => apply N.eqb_eq in Hx; subst
         end.
  do 13 eexists. split; [reflexivity|]. split; [exact Hv|]. now repeat split.
Qed.

(** Whatever [strptime] accepts is a date and time of the calendar, its year
    between 1969 and 2068. *)
Lemma strptime_accepts (s : str) (d : datetime) :
  strptime_dmy_HMS s = Ok d ->
  valid d = true /\ 1969 <= year d <= 2068.
Proof.
  intros H. apply strptime_fields in H.
  destruct H as (d1 & d2 & m1 & m2 & y1 & y2 & sp & h1 & h2 & i1 & i2 & s1
                 & s2 & _ & Hv & -> & _).
  split; [exact Hv|]. cbn [year]. apply pivot_year_range.
Qed.

(** The parts of a line that [parse_log_line] turns into an event. *)
Lemma parse_log_line_event (line : string) (ev : LootEvent) :
  parse_log_line line = Ok (Some ev) ->
  exists before D Tm Q I rest,
    chars line = before ++ record_text D Tm Q I ++ rest /\
    record_at (record_text D Tm Q I ++ rest) D Tm Q I /\
    parse_datetime_from_log D Tm = Ok (ts ev) /\
    (List.length Q <= max_str_digits)%nat /\
    quantity ev = int_of_decimals Q /\
    item ev = Utf8.encode I.
Proof.
  intros Hparse. unfold parse_log_line in Hparse.
  destruct (search LOG_LINE_RE (chars line)) as [g|] eqn:E; [|discriminate].
  apply search_sound in E. destruct E as (before & s' & Hline & Hm).
  apply match_here_sound in Hm.
  destruct Hm as (D & Tm & Q & I & Hrec & ->).
  pose proof Hrec as (_ & _ & HQ & _ & rest & ->).
  rewrite (py_int_quantity Q HQ) in Hparse.
  destruct (parse_datetime_from_log D Tm) as [d|e] eqn:Ed; [|discriminate].
  cbn [bind] in Hparse.
  destruct (Nat.leb_spec (List.length Q) max_str_digits) as [Hle|Hgt];
    [|discriminate].
  cbn [bind] in Hparse. injection Hparse as <-.
  exists before, D, Tm, Q, I, rest. cbn [ts quantity item].
  split; [exact Hline|]. split; [exact Hrec|]. split; [exact Ed|].
  split; [exact Hle|]. split; reflexivity.
Qed.

(** X1. Every event that [parse_log_line] returns is well formed: its
    quantity is not negative, its timestamp is a date and time of the
    calendar with a year from 1969 to 2068, and its item name is not empty,
    holds no newline and no period after its first character. *)
Theorem parsed_event_well_formed (line : string) (ev : LootEvent)
    (Hparse : parse_log_line line = Ok (Some ev)) :
  0 <= quantity ev /\
  valid (ts ev) = true /\
  1969 <= year (ts ev) <= 2068 /\
  is_item (chars (item ev)) = true.
Proof.
  apply parse_log_line_event in Hparse.
  destruct Hparse as (before & D & Tm & Q & I & rest & Hline & Hrec & Hts
                      & _ & -> & ->).
  destruct Hrec as (_ & _ & _ & HI & _).
  apply strptime_accepts in Hts. destruct Hts as [Hv Hy].
  split; [apply int_of_decimals_nonneg|]. split; [exact Hv|].
  split; [exact Hy|]. rewrite chars_encode; [exact HI|].
  pose proof (chars_scalar line) as Hs. rewrite Hline in Hs.
  apply forallb_app_r, forallb_app_l in Hs. unfold record_text in Hs.
  do 7 apply forallb_app_r in Hs. now apply forallb_app_l in Hs.
Qed.

Lemma parsed_event_well_formed_witness :
  let line :=
    Utf8.encode (chars "[24/11/25] [00:29:29]: You receive 12 "
                 ++ [26408; 26448]%N ++ chars ". Potion.") in
  let ev := mkLootEvent (mkdt 2025 11 24 0 29 29) 12
              (Utf8.encode [26408; 26448]%N) in
  parse_log_line line = Ok (Some ev) /\
  0 <= quantity ev /\ valid (ts ev) = true /\ 1969 <= year (ts ev) <= 2068 /\
  is_item (chars (item ev)) = true.
Proof.
  intros line ev. split; [reflexivity|].
  exact (parsed_event_well_formed line ev eq_refl).
Defined.

(** ** More on the window and its snapshot *)

Lemma window_snoc_shape (self : LiveMonitorWorker) (evs : list LootEvent)
    (latest : LootEvent) :
  0 <= window_minutes self ->
  exists kept,
    window (add_events self (evs ++ [latest])) = kept ++ [latest].
Proof.
  intros Hm. rewrite add_events_snoc, window_add_event.
  apply popleft_while_keeps_last.
  unfold within, cutoff_of, seconds_of.
  rewrite window_minutes_add_events. lia.
Qed.

(** X2. For arrivals in chronological order and a window length that is not
    negative, the snapshot ends at the latest event and spans at most the
    window length: the elapsed time is at most
    [max(60 * window_minutes, 1)] seconds. *)
Theorem window_span_bounded (m r : Z) (f : bool)
    (evs : list LootEvent) (latest : LootEvent)
    (Hm : 0 <= m)
    (Hchr : chronological (evs ++ [latest]) = true) :
  let self := add_events (new_worker m r f) (evs ++ [latest]) in
  exists s,
    compute_stats_from_window self = (Ok (Some s), self) /\
    end_ s = ts latest /\
    0 <= to_seconds (end_ s) - to_seconds (start s) <= 60 * m /\
    elapsed_seconds (start s) (end_ s) <= Z.max (60 * m) 1.
Proof.
  intros self.
  destruct (window_exact m r f evs latest Hchr) as (gone & Hsplit & Hin & _).
  destruct (window_snoc_shape (new_worker m r f) evs latest Hm) as (kept & Hk).
  fold self in Hsplit, Hin, Hk.
  destruct (window self) as [|first rest] eqn:Hw.
  { now destruct kept. }
  exists (snapshot_of first (window self)).
  split; [now apply (compute_stats_nonempty self first rest)|].
  unfold snapshot_of. cbn [start end_]. rewrite Hw, Hk, last_last.
  assert (Hlow : seconds_of latest - 60 * m <= seconds_of first).
  { now inversion Hin. }
  assert (Hup : seconds_of first <= seconds_of latest).
  { rewrite Hsplit in Hchr. apply chronological_app in Hchr.
    destruct Hchr as (_ & Hc & _). apply chronological_bound in Hc.
    destruct kept as [|a kept]; simpl in Hk.
    - injection Hk as -> _. lia.
    - injection Hk as _ ->. rewrite Forall_forall in Hc.
      apply Hc. apply in_or_app. simpl. auto. }
  unfold seconds_of in Hlow, Hup. unfold elapsed_seconds.
  split; [reflexivity|]. lia.
Qed.

Lemma window_span_bounded_witness :
  let at_ := fun h mi => mkdt 2025 11 24 h mi 0 in
  let e1 := mkLootEvent (at_ 10 0) 5 "Yang" in
  let e2 := mkLootEvent (at_ 10 6) 7 "Iron Ore" in
  let e3 := mkLootEvent (at_ 10 9) 1 "Yang" in
  let self := add_events (new_worker 5 1 true) ([e1; e2] ++ [e3]) in
  0 <= 5 /\ chronological ([e1; e2] ++ [e3]) = true /\
  exists s,
    compute_stats_from_window self = (Ok (Some s), self) /\
    end_ s = ts e3 /\
    0 <= to_seconds (end_ s) - to_seconds (start s) <= 60 * 5 /\
    elapsed_seconds (start s) (end_ s) <= Z.max (60 * 5) 1.
Proof.
  intros at_ e1 e2 e3 self. split; [lia|]. split; [reflexivity|].
  exact (window_span_bounded 5 1 true [e1; e2] e3 ltac:(lia) eq_refl).
Defined.

(** ** Totals *)

Lemma sumZ_app (l1 l2 : list Z) : sumZ (l1 ++ l2) = sumZ l1 + sumZ l2.
Proof. induction l1 as [|a l1 IH]; simpl; lia. Qed.

Lemma sumZ_perm (l1 l2 : list Z) : Permutation l1 l2 -> sumZ l1 = sumZ l2.
Proof. induction 1; simpl; lia. Qed.

Lemma fold_left_add (l : list Z) (a : Z) : fold_left Z.add l a = a + sumZ l.
Proof.
  revert a. induction l as [|x l IH]; intros a; simpl; [lia|].
  rewrite IH. lia.
Qed.

Lemma sum_yang_snoc (w : list LootEvent) (e : LootEvent) :
  sum_yang (w ++ [e])
  = sum_yang w + (if is_yang e then quantity e else 0).
Proof.
  unfold sum_yang. rewrite filter_app, map_app, !fold_left_add, sumZ_app.
  simpl. destruct (is_yang e); simpl; lia.
Qed.

Lemma dict_add_sum (k : string) (q : Z) (d : list (string * Z)) :
  sumZ (map snd (dict_add k q d)) = sumZ (map snd d) + q.
Proof.
  induction d as [|[k' v] d IH]; simpl; [lia|].
  destruct (String.eqb k' k); simpl; lia.
Qed.

(** Each quantity is counted once: as currency or in one item total. *)
Lemma totals_partition (w : list LootEvent) :
  sum_yang w + sumZ (map snd (accumulate_items w)) = sumZ (map quantity w).
Proof.
  induction w as [|e w IH] using rev_ind; [reflexivity|].
  rewrite sum_yang_snoc, accumulate_items_snoc, map_app, sumZ_app. simpl.
  destruct (is_yang e); [lia|]. rewrite dict_add_sum. lia.
Qed.

Lemma rows_of_quantities (hours : Q) (d : list (string * Z)) :
  map stat_qty (rows_of hours d) = map snd d.
Proof. unfold rows_of. rewrite map_map. now apply map_ext. Qed.

(** X3. Nothing is lost and nothing is counted twice: in the snapshot of a
    window that is not empty, [total_yang] and the quantities of the item
    rows add up to the quantities of all the events of the window. *)
Theorem quantities_conserved (self : LiveMonitorWorker)
    (Hne : window self <> []) :
  exists s,
    compute_stats_from_window self = (Ok (Some s), self) /\
    total_yang s + sumZ (map stat_qty (items s))
    = sumZ (map quantity (window self)).
Proof.
  destruct (window self) as [|first rest] eqn:Hw; [contradiction|].
  rewrite <- Hw.
  exists (snapshot_of first (window self)).
  split; [now apply (compute_stats_nonempty self first rest)|].
  unfold snapshot_of. cbn [total_yang items].
  rewrite <- totals_partition. f_equal.
  rewrite <- (rows_of_quantities
                (inject_Z (elapsed_seconds (ts first)
                             (ts (last (window self) first))) / 3600)%Q).
  symmetry. apply sumZ_perm, Permutation_map, sort_desc_perm.
Qed.

Lemma quantities_conserved_witness :
  let t := mkdt 2025 11 24 10 0 0 in
  let self := add_events (new_worker 60 5 false)
                [mkLootEvent t 30 "A"; mkLootEvent t 5 "Yang";
                 mkLootEvent t 50 "B"; mkLootEvent t 12 "A"] in
  window self <> [] /\
  exists s,
    compute_stats_from_window self = (Ok (Some s), self) /\
    total_yang s + sumZ (map stat_qty (items s))
    = sumZ (map quantity (window self)).
Proof.
  intros t self. split; [discriminate|].
  exact (quantities_conserved self ltac:(discriminate)).
Defined.

(** ** The offline path: [stats_from_events] *)

Lemma stats_turns (w : list LootEvent) :
  fold_left stats_turn w (0, [], []) = (sum_yang w, accumulate_items w, w).
Proof.
  induction w as [|e w IH] using rev_ind; [reflexivity|].
  rewrite fold_left_app, IH. cbn [fold_left stats_turn].
  rewrite sum_yang_snoc, accumulate_items_snoc.
  destruct (is_yang e); [reflexivity|]. now rewrite Z.add_0_r.
Qed.


(** ** More on the tail loop *)

Lemma add_event_config (self : LiveMonitorWorker) (ev : LootEvent) :
  window_minutes (add_event self ev) = window_minutes self /\
  refresh_secs (add_event self ev) = refresh_secs self.
Proof. now split. Qed.

(** What reading does to the state. *)
Lemma read_step_cases (rd : result string) (st st1 : tail_state) :
  read_step rd st = Ok st1 ->
  exists line,
    rd = Ok line /\
    emitted st1 = emitted st /\ last_print st1 = last_print st /\
    ((line = ""%string /\ st1 = sleep st) \/
     (line <> ""%string /\ parse_log_line line = Ok None /\ st1 = st) \/
     (line <> ""%string /\
      exists ev, parse_log_line line = Ok (Some ev) /\
                 st1 = set_self st (add_event (self st) ev))).
Proof.
  unfold read_step. destruct rd as [line|e]; cbn [bind]; [|discriminate].
  intros H. exists line. split; [reflexivity|].
  destruct (String.eqb_spec line "") as [->|Hne].
  - injection H as <-. repeat split. now left.
  - destruct (parse_log_line line) as [[ev|]|e]; cbn [bind] in H;
      try discriminate; injection H as <-; repeat split; right.
    + right. split; [exact Hne|]. now exists ev.
    + left. now repeat split.
Qed.

Lemma read_step_config (rd : result string) (st st1 : tail_state) :
  read_step rd st = Ok st1 ->
  window_minutes (self st1) = window_minutes (self st) /\
  refresh_secs (self st1) = refresh_secs (self st) /\
  (0 <= window_minutes (self st) -> window (self st) <> [] ->
   window (self st1) <> []).
Proof.
  intros H. apply read_step_cases in H.
  destruct H as (line & _ & _ & _ & [[_ ->]|[(_ & _ & ->)|(_ & ev & _ & ->)]]);
    cbn [self sleep set_self]; try now repeat split.
  split; [reflexivity|]. split; [reflexivity|].
  intros Hm _ Hempty.
  destruct (popleft_while_keeps_last (cutoff_of (self st) ev)
              (window (self st)) ev) as (kept & Hk).
  { unfold within, cutoff_of, seconds_of. lia. }
  rewrite window_add_event, Hk in Hempty. now destruct kept.
Qed.



Lemma parse_log_line_empty : parse_log_line "" = Ok None.
Proof. reflexivity. Qed.

(** A turn whose read succeeds, by what the line parses to. *)
Lemma iteration_line (line : string) (now_ts : Q) (st : tail_state) :
  match parse_log_line line with
  | Ok None =>
      exists st', iteration (Ok line) now_ts st = Ok st' /\
                  self st' = self st /\
                  idle st' = if String.eqb line "" then S (idle st) else idle st
  | Ok (Some ev) =>
      exists st', iteration (Ok line) now_ts st = Ok st' /\
                  self st' = add_event (self st) ev /\ idle st' = idle st
  | Raise e => iteration (Ok line) now_ts st = Raise e
  end.
Proof.
  unfold iteration, read_step. cbn [bind].
  destruct (String.eqb_spec line "") as [->|Hne].
  - rewrite parse_log_line_empty. cbn [bind].
    destruct (report_step_cases now_ts (sleep st)) as (st' & H & Hs & Hi & _).
    exists st'. now repeat split.
  - destruct (parse_log_line line) as [[ev|]|e]; cbn [bind]; [| |reflexivity].
    + destruct (report_step_cases now_ts (set_self st (add_event (self st) ev)))
        as (st' & H & Hs & Hi & _).
      exists st'. now repeat split.
    + destruct (report_step_cases now_ts st) as (st' & H & Hs & Hi & _).
      exists st'. now repeat split.
Qed.



Lemma Forall_snoc {A : Type} (P : A -> Prop) (l : list A) (x : A) :
  Forall P l -> P x -> Forall P (l ++ [x]).
Proof. intros Hl Hx. apply Forall_app. split; auto. Qed.

(** One turn sends at most one payload, and only snapshots. *)
Lemma iteration_emits (rd : result string) (now_ts : Q) (st st' : tail_state) :
  iteration rd now_ts st = Ok st' ->
  emitted st' = emitted st \/ exists s, emitted st' = emitted st ++ [StatsMsg s].
Proof.
  unfold iteration. intros Hit.
  destruct (read_step rd st) as [st1|e] eqn:Hread; [|discriminate].
  cbn [bind] in Hit. apply read_step_emitted in Hread.
  destruct Hread as [He _].
  destruct (report_step_cases now_ts st1) as (st2 & Hrep & _ & _ & Hcase).
  rewrite Hrep in Hit. injection Hit as <-. rewrite <- He.
  destruct (window (self st1)); [now left|].
  destruct (Qle_bool _ _); [right; eexists; exact Hcase|now left].
Qed.


(** The clock of the reports: [last_print] moves to the current clock value
    exactly when a report is due, whether or not a snapshot is sent. *)
Lemma report_step_clock (now_ts : Q) (st st' : tail_state) :
  report_step now_ts st = Ok st' ->
  if Qle_bool (inject_Z (refresh_secs (self st))) (now_ts - last_print st)
  then last_print st' = now_ts
  else st' = st.
Proof.
  unfold report_step. destruct (Qle_bool _ _); [|now intros [= <-]].
  change (self (set_last_print st now_ts)) with (self st).
  destruct (window (self st)) as [|first rest] eqn:Hw.
  - rewrite (compute_stats_empty _ Hw). cbn [bind]. now intros [= <-].
  - rewrite (compute_stats_nonempty _ first rest Hw). cbn [bind].
    now intros [= <-].
Qed.

Lemma iteration_clock (rd : result string) (now_ts : Q) (st st' : tail_state) :
  iteration rd now_ts st = Ok st' ->
  refresh_secs (self st') = refresh_secs (self st) /\
  if Qle_bool (inject_Z (refresh_secs (self st))) (now_ts - last_print st)
  then last_print st' = now_ts
  else last_print st' = last_print st /\ emitted st' = emitted st.
Proof.
  unfold iteration. intros Hit.
  destruct (read_step rd st) as [st1|e] eqn:Hread; [|discriminate].
  cbn [bind] in Hit.
  destruct (read_step_config _ _ _ Hread) as (_ & Hrs & _).
  apply read_step_emitted in Hread. destruct Hread as [He Hl].
  destruct (report_step_cases now_ts st1) as (st2 & Hrep & Hself & _ & _).
  pose proof (report_step_clock now_ts st1 st2 Hrep) as Hclock.
  rewrite Hrep in Hit. injection Hit as <-.
  rewrite Hrs, Hl in Hclock. split; [now rewrite Hself|].
  destruct (Qle_bool _ _); [exact Hclock|]. subst st2. now split.
Qed.



(** ** Formatting numbers for the window *)

Lemma int_of_digits_snoc (l : list ascii) (a : ascii) :
  int_of_digits (l ++ [a]) = 10 * int_of_digits l + digit_val a.
Proof. unfold int_of_digits. now rewrite fold_left_app. Qed.

Lemma pow2_succ (f : nat) : 2 ^ Z.of_nat (S f) = 2 * 2 ^ Z.of_nat f.
Proof. rewrite Nat2Z.inj_succ, Z.pow_succ_r; lia. Qed.

(** With enough fuel the digits are those of the number. *)
Lemma digits_fuel_spec (f : nat) :
  forall n, 0 <= n < 2 ^ Z.of_nat (S f) ->
    int_of_digits (digits_fuel (S f) n) = n /\
    forallb is_digit (digits_fuel (S f) n) = true /\
    digits_fuel (S f) n <> [].
Proof.
  induction f as [|f IH]; intros n Hn.
  - assert (Hlt : n < 10) by (change (2 ^ Z.of_nat 1) with 2 in Hn; lia).
    cbn [digits_fuel]. apply Z.ltb_lt in Hlt. rewrite Hlt.
    apply Z.ltb_lt in Hlt.
    destruct (digit_char_spec n ltac:(lia)) as [Hd Hv].
    cbn [forallb]. rewrite Hd. repeat split; try discriminate.
    unfold int_of_digits. cbn [fold_left]. lia.
  - change (digits_fuel (S (S f)) n)
      with (if n <? 10 then [digit_char n]
            else digits_fuel (S f) (n / 10) ++ [digit_char (n mod 10)]).
    destruct (Z.ltb_spec n 10) as [Hlt|Hge].
    + destruct (digit_char_spec n ltac:(lia)) as [Hd Hv].
      cbn [forallb]. rewrite Hd. repeat split; try discriminate.
      unfold int_of_digits. cbn [fold_left]. lia.
    + rewrite pow2_succ in Hn.
      assert (Hq : 0 <= n / 10 < 2 ^ Z.of_nat (S f))
        by (Z.div_mod_to_equations; lia).
      destruct (IH _ Hq) as (Hv & Hd & Hne).
      assert (Hr : 0 <= n mod 10 <= 9) by (Z.div_mod_to_equations; lia).
      destruct (digit_char_spec _ Hr) as [Hd' Hv'].
      rewrite int_of_digits_snoc, Hv, Hv', forallb_app, Hd. cbn [forallb].
      rewrite Hd'. repeat split.
      * Z.div_mod_to_equations. lia.
      * now destruct (digits_fuel (S f) (n / 10)).
Qed.

Lemma digits_of_spec (n : Z) :
  0 <= n ->
  int_of_digits (digits_of n) = n /\
  forallb is_digit (digits_of n) = true /\ digits_of n <> [].
Proof.
  intros Hn. unfold digits_of. apply digits_fuel_spec.
  split; [exact Hn|].
  destruct (Z.eq_dec n 0) as [->|Hnz]; [reflexivity|].
  rewrite Nat2Z.inj_succ, Z2Nat.id by apply Z.log2_nonneg.
  apply Z.log2_spec. lia.
Qed.

Lemma digit_not_comma (c : ascii) : is_digit c = true -> not_comma c = true.
Proof.
  unfold not_comma. now destruct (Ascii.eqb_spec c ",") as [->|].
Qed.

Lemma sep3_filter (l : list ascii) :
  forallb not_comma l = true ->
  forall k, filter not_comma (sep3 k l) = l.
Proof.
  induction l as [|a l IH]; intros Hl k; [reflexivity|].
  cbn [forallb] in Hl. apply andb_prop in Hl. destruct Hl as [Ha Hl].
  destruct k; cbn [sep3 filter]; rewrite ?Ha; cbn [not_comma Ascii.eqb];
    try (change (not_comma ",") with false; cbn iota);
    now rewrite IH.
Qed.

Lemma sep3_positions (l : list ascii) :
  forallb not_comma l = true ->
  forall k i c,
    (k <= 3)%nat ->
    nth_error (sep3 k l) i = Some c ->
    (c = ","%char <-> ((i + (3 - k)) mod 4 = 3)%nat).
Proof.
  induction l as [|a l IH]; intros Hl k i c Hk Hi.
  - destruct i; discriminate.
  - cbn [forallb] in Hl. apply andb_prop in Hl. destruct Hl as [Ha Hl].
    assert (Hac : a <> ","%char).
    { intros ->. discriminate. }
    destruct k as [|k]; cbn [sep3] in Hi.
    + destruct i as [|[|i]]; cbn [nth_error] in Hi.
      * injection Hi as <-. split; [reflexivity|auto].
      * injection Hi as <-. split; [contradiction|discriminate].
      * apply (IH Hl 2%nat i c) in Hi; [|lia]. rewrite Hi.
        replace (S (S i) + (3 - 0))%nat with (i + (3 - 2) + 1 * 4)%nat by lia.
        now rewrite Nat.Div0.mod_add.
    + destruct i as [|i]; cbn [nth_error] in Hi.
      * injection Hi as <-. split; [contradiction|].
        rewrite Nat.mod_small by lia. lia.
      * apply (IH Hl k i c) in Hi; [|lia]. rewrite Hi.
        now replace (S i + (3 - S k))%nat with (i + (3 - k))%nat by lia.
Qed.

Lemma sep3_last (l : list ascii) (a : ascii) :
  forall k, exists pre, sep3 k (l ++ [a]) = pre ++ [a].
Proof.
  induction l as [|b l IH]; intros k.
  - destruct k; [now exists [","%char]|now exists []].
  - destruct k; cbn [app sep3].
    + destruct (IH 2%nat) as (pre & ->). now exists (","%char :: b :: pre).
    + destruct (IH k) as (pre & ->). now exists (b :: pre).
Qed.

Lemma digits_not_comma (n : Z) :
  0 <= n -> forallb not_comma (rev (digits_of n)) = true.
Proof.
  intros Hn. destruct (digits_of_spec n Hn) as (_ & Hd & _).
  apply forallb_forall. intros c Hc. apply in_rev in Hc.
  rewrite forallb_forall in Hd. now apply digit_not_comma, Hd.
Qed.

(** Reading a formatted number gives the number. *)
Lemma format_thousands_read (n : Z) :
  0 <= n -> read_number (format_thousands n) = n.
Proof.
  intros Hn. destruct (digits_of_spec n Hn) as (Hv & _ & _).
  unfold read_number, format_thousands.
  rewrite list_ascii_of_string_of_list_ascii, Z.abs_eq by exact Hn.
  destruct (Z.ltb_spec n 0) as [Hneg|_]; [lia|]. cbn [app].
  rewrite filter_rev, (sep3_filter _ (digits_not_comma n Hn)), rev_involutive.
  exact Hv.
Qed.



(** ** The window of the application *)

Lemma lstrip_spec (l : str) :
  exists pre,
    l = pre ++ lstrip l /\ forallb is_space pre = true /\
    match lstrip l with a :: _ => is_space a = false | [] => True end.
Proof.
  induction l as [|a l (pre & Hl & Hpre & Hhd)]; [now exists []|].
  cbn [lstrip]. destruct (is_space a) eqn:Ha.
  - exists (a :: pre). cbn [app forallb]. rewrite Ha, Hpre.
    split; [now f_equal|]. now split.
  - exists []. split; [reflexivity|]. now split.
Qed.

Lemma lstrip_blank (l : str) : lstrip l = [] <-> forallb is_space l = true.
Proof.
  induction l as [|a l IH]; [now split|]. cbn [lstrip forallb].
  destruct (is_space a); cbn [andb]; [exact IH|]. split; discriminate.
Qed.

Lemma lstrip_ends (l : str) (a : code) :
  is_space a = false -> exists init, lstrip (l ++ [a]) = init ++ [a].
Proof.
  intros Ha. induction l as [|b l (init & IH)]; cbn [app lstrip].
  - rewrite Ha. now exists [].
  - destruct (is_space b); [now exists init|]. now exists (b :: l).
Qed.

Lemma forallb_rev {A : Type} (f : A -> bool) (l : list A) :
  forallb f l = true -> forallb f (rev l) = true.
Proof.
  rewrite !forallb_forall. intros H x Hx. apply H. now apply in_rev.
Qed.

(** [strip] takes blanks off both ends and nothing else. *)
Lemma strip_spec (s : string) :
  if blank s then strip s = EmptyString
  else
    exists pre core post,
      chars s = pre ++ core ++ post /\
      strip s = Utf8.encode core /\
      forallb is_space pre = true /\ forallb is_space post = true /\
      (exists a mid, core = a :: mid /\ is_space a = false) /\
      (exists init b, core = init ++ [b] /\ is_space b = false).
Proof.
  unfold blank, strip.
  destruct (lstrip_spec (chars s)) as (pre & Hl & Hpre & Hhd).
  destruct (forallb is_space (chars s)) eqn:Hb.
  - apply lstrip_blank in Hb. now rewrite Hb.
  - destruct (lstrip (chars s)) as [|a m] eqn:Hm.
    { apply lstrip_blank in Hm. congruence. }
    cbn [rev].
    destruct (lstrip_ends (rev m) a Hhd) as (init & Hinit).
    destruct (lstrip_spec (rev m ++ [a])) as (pre2 & H2 & Hpre2 & Hhd2).
    rewrite Hinit in H2, Hhd2 |- *.
    assert (Hm' : a :: m = rev (init ++ [a]) ++ rev pre2).
    { rewrite <- rev_app_distr, <- H2, rev_app_distr, rev_involutive.
      reflexivity. }
    exists pre, (rev (init ++ [a])), (rev pre2).
    split; [now rewrite Hl, Hm'|]. split; [reflexivity|].
    split; [exact Hpre|]. split; [now apply forallb_rev|]. split.
    + rewrite rev_app_distr. cbn [rev app]. now exists a, (rev init).
    + destruct init as [|b init]; cbn [app] in Hhd2 |- *.
      * now exists [], a.
      * cbn [rev]. now exists (rev (init ++ [a])), b.
Qed.

Lemma encode_nonempty (a : code) (t : str) :
  Utf8.scalar a = true -> Utf8.encode (a :: t) <> EmptyString.
Proof.
  intros Ha. unfold Utf8.encode. cbn [flat_map].
  destruct (encode_code_bytes a Ha) as [Hne _].
  destruct (Utf8.encode_code a); [contradiction|discriminate].
Qed.

Lemma strip_nonblank (s : string) :
  blank s = false ->
  String.eqb (strip s) EmptyString = false /\ blank (strip s) = false.
Proof.
  intros Hb. pose proof (strip_spec s) as H. rewrite Hb in H.
  destruct H as (pre & core & post & Hl & -> & _ & _ & (a & mid & -> & Ha) & _).
  pose proof (chars_scalar s) as Hs. rewrite Hl in Hs.
  apply forallb_app_r, forallb_app_l in Hs. split.
  - apply String.eqb_neq, encode_nonempty.
    cbn [forallb] in Hs. now apply andb_prop in Hs.
  - unfold blank. rewrite (chars_encode _ Hs). cbn [forallb]. now rewrite Ha.
Qed.

Lemma strip_blank (s : string) :
  blank s = true -> String.eqb (strip s) EmptyString = true.
Proof.
  intros Hb. pose proof (strip_spec s) as H. rewrite Hb in H. now rewrite H.
Qed.

(** What [start_monitor] does, case by case. *)
Lemma start_monitor_cases (app : LootMonitorApp) :
  start_monitor app =
  match worker app with
  | Some _ => (show app (ShowInfo "Info" "Monitor is already running."), None)
  | None =>
      if blank (log_path_var app) then
        (show app (ShowError "Error" "Please select a log file."), None)
      else
        match window_minutes_var app, refresh_secs_var app with
        | Some window_minutes, Some refresh_secs =>
            (mkApp (log_path_var app) (window_minutes_var app)
                   (refresh_secs_var app) (from_start_var app)
                   (Some (strip (log_path_var app),
                          new_worker window_minutes refresh_secs
                                     (from_start_var app)))
                   false false true created_display (dialogs app)
                   (destroyed app),
             None)
        | _, _ => (reset_stats_ui app, Some TclError)
        end
  end.
Proof.
  unfold start_monitor. destruct (worker app); [reflexivity|].
  destruct (blank (log_path_var app)) eqn:Hb.
  - now rewrite (strip_blank _ Hb).
  - destruct (strip_nonblank _ Hb) as [-> _]. reflexivity.
Qed.

Lemma start_monitor_ok (app : LootMonitorApp) :
  session_ok app -> session_ok (fst (start_monitor app)).
Proof.
  intros [Hc Hp]. rewrite start_monitor_cases. unfold session_ok, coherent in *.
  destruct (worker app) as [[p w]|] eqn:Hw.
  - cbn. rewrite Hw. split; [exact Hc|exact Hp].
  - destruct (blank (log_path_var app)) eqn:Hb.
    + cbn. rewrite Hw. split; [exact Hc|exact Hp].
    + destruct (window_minutes_var app), (refresh_secs_var app); cbn;
        rewrite ?Hw; try (split; [exact Hc|exact Hp]).
      split; [now repeat split|]. intros p w [= <- _].
      now apply strip_nonblank.
Qed.

Lemma stop_monitor_ok (app : LootMonitorApp) : session_ok (stop_monitor app).
Proof. split; [now split|]. discriminate. Qed.

Lemma ui_step_ok (format_2f format_1f : Q -> string) (app : LootMonitorApp)
    (ev : ui_event) :
  session_ok app -> session_ok (ui_step format_2f format_1f app ev).
Proof.
  intros H. destruct ev; cbn [ui_step];
    try (exact H); try (apply stop_monitor_ok); try (now apply start_monitor_ok).
  - unfold browse_file. now destruct (String.eqb _ _).
  - destruct stats; cbn [update_stats]; [exact H|apply stop_monitor_ok].
Qed.

Lemma ui_run_ok (format_2f format_1f : Q -> string) (evs : list ui_event) :
  forall app, session_ok app -> session_ok (ui_run format_2f format_1f app evs).
Proof.
  induction evs as [|ev evs IH]; intros app H; [exact H|].
  cbn [ui_run fold_left]. apply IH. now apply ui_step_ok.
Qed.

(** X10. The buttons tell the state of the monitor. After any sequence of
    clicks, edits, file choices, worker callbacks and closing, from the
    window as it is created: Start is enabled exactly when no worker is in
    place and Stop exactly when one is; the stop event of a worker in place
    is not set; and the path a worker in place was given is not blank. *)
Theorem ui_session_coherent (format_2f format_1f : Q -> string)
    (evs : list ui_event) :
  let app := ui_run format_2f format_1f app_init evs in
  match worker app with
  | None => start_button app = true /\ stop_button app = false
  | Some (p, _) =>
      start_button app = false /\ stop_button app = true /\
      stop_event app = false /\ blank p = false
  end.
Proof.
  assert (H0 : session_ok app_init).
  { split; [now split|]. discriminate. }
  destruct (ui_run_ok format_2f format_1f evs app_init H0) as [Hc Hp].
  cbv zeta. unfold coherent in Hc.
  destruct (worker (ui_run format_2f format_1f app_init evs)) as [[p w]|];
    [|exact Hc].
  destruct Hc as (H1 & H2 & H3). specialize (Hp p w eq_refl). now repeat split.
Qed.

(** X11. What Start does with the path field when no monitor runs. A path
    of white space only is refused with the error box and nothing else
    changes. Otherwise the characters of the path are white space, a core
    that neither begins nor ends with white space, and white space; when
    both number fields read as numbers the worker gets the core as its path
    and the fields' values, with an empty window, and the display is wiped;
    when one does not, the display is wiped and [TclError] leaves the
    callback with no worker started. *)
Theorem start_monitor_path (app : LootMonitorApp)
    (Hidle : worker app = None) :
  if blank (log_path_var app) then
    start_monitor app
    = (show app (ShowError "Error" "Please select a log file."), None)
  else
    exists pre core post,
      chars (log_path_var app) = pre ++ core ++ post /\
      forallb is_space pre = true /\ forallb is_space post = true /\
      (exists a mid, core = a :: mid /\ is_space a = false) /\
      (exists init b, core = init ++ [b] /\ is_space b = false) /\
      match window_minutes_var app, refresh_secs_var app with
      | Some window_minutes, Some refresh_secs =>
          snd (start_monitor app) = None /\
          worker (fst (start_monitor app))
          = Some (Utf8.encode core,
                  mkWorker window_minutes refresh_secs (from_start_var app) [])
          /\ display (fst (start_monitor app)) = created_display
          /\ dialogs (fst (start_monitor app)) = dialogs app
      | _, _ =>
          start_monitor app = (reset_stats_ui app, Some TclError)
      end.
Proof.
  rewrite start_monitor_cases, Hidle.
  pose proof (strip_spec (log_path_var app)) as Hs.
  destruct (blank (log_path_var app)); [reflexivity|].
  destruct Hs as (pre & core & post & Hl & Hcore & Hpre & Hpost & Hfst & Hlst).
  exists pre, core, post. repeat (split; [assumption|]).
  destruct (window_minutes_var app), (refresh_secs_var app); try reflexivity.
  cbn [fst snd worker display dialogs]. rewrite Hcore. now repeat split.
Qed.

(** A path between a no-break space and an em space, its name ending in a
    letter of two bytes; and a path of an em space alone. *)
Lemma start_monitor_path_witness :
  let name := (chars "log" ++ [224])%N in
  let app := ui_step (fun _ => EmptyString) (fun _ => EmptyString) app_init
               (Edit_path (Utf8.encode ([160] ++ name ++ [8195])%N)) in
  let app' := ui_step (fun _ => EmptyString) (fun _ => EmptyString) app_init
                (Edit_path (Utf8.encode [8195]%N)) in
  worker app = None /\
  strip (log_path_var app) = Utf8.encode name /\
  snd (start_monitor app) = None /\
  display (fst (start_monitor app)) = created_display /\
  start_monitor app'
  = (show app' (ShowError "Error" "Please select a log file."), None).
Proof.
  intros name app app'. split; [reflexivity|]. split; [reflexivity|].
  pose proof (start_monitor_path app eq_refl) as H.
  change (blank (log_path_var app)) with false in H.
  destruct H as (pre & core & post & _ & _ & _ & _ & _ & H).
  change (window_minutes_var app) with (Some 60) in H.
  change (refresh_secs_var app) with (Some 5) in H.
  cbv iota in H. destruct H as (H1 & _ & H2 & _).
  split; [exact H1|]. split; [exact H2|].
  exact (start_monitor_path app' eq_refl).
Defined.

(** X12. A log file that cannot be opened. Start on a window with no
    monitor, a path that is not blank and number fields that read as
    numbers puts a worker in place; when its [open] fails with [OSError]
    the worker sends one message, and once the window has handled it no
    worker is in place, Start is enabled and Stop is not, the stop event is
    set, the display shows the wiped values and one error box naming the
    failure has been added. *)
Theorem open_failure_shown (format_2f format_1f : Q -> string)
    (app : LootMonitorApp) (window_minutes refresh_secs : Z) (msg : string)
    (start_time : Q) (script : list (result string * Q))
    (Hidle : worker app = None)
    (Hpath : blank (log_path_var app) = false)
    (Hwm : window_minutes_var app = Some window_minutes)
    (Hrs : refresh_secs_var app = Some refresh_secs) :
  exists p w sent,
    worker (fst (start_monitor app)) = Some (p, w) /\
    run w (Raise (OSError msg)) start_time script = OpenFailed sent /\
    let app' :=
      ui_run format_2f format_1f (fst (start_monitor app)) (map Callback sent)
    in
    worker app' = None /\
    start_button app' = true /\ stop_button app' = false /\
    stop_event app' = true /\
    display app' = created_display /\
    dialogs app'
    = dialogs app
      ++ [ShowError "Error" (String.append "Cannot open log file: " msg)].
Proof.
  rewrite start_monitor_cases, Hidle, Hpath, Hwm, Hrs. cbn [fst].
  eexists _, _, _. split; [reflexivity|]. split; [reflexivity|].
  cbv zeta. cbn. now repeat split.
Qed.

Lemma open_failure_shown_witness :
  worker app_init = None /\
  blank (log_path_var app_init) = false /\
  exists p w sent,
    worker (fst (start_monitor app_init)) = Some (p, w) /\
    run w (Raise (OSError "missing")) 0 [] = OpenFailed sent.
Proof.
  split; [reflexivity|]. split; [reflexivity|].
  destruct (open_failure_shown (fun _ => EmptyString) (fun _ => EmptyString)
              app_init 60 5 "missing" 0 [] eq_refl eq_refl eq_refl eq_refl)
    as (p & w & sent & Hw & Hrun & _).
  exists p, w, sent. split; [exact Hw|exact Hrun].
Defined.

(** ** What the window shows *)

Lemma tree_rows_in (l : list item_stat) :
  forall k r,
    In r (tree_rows k l) ->
    exists x, In x l /\ row_name r = stat_name x /\
              row_qty r = format_thousands (stat_qty x) /\
              row_per_hour r = format_thousands (stat_per_hour x).
Proof.
  induction l as [|[[name qty] per_hour] l IH]; intros k r Hr; [contradiction|].
  cbn [tree_rows] in Hr. destruct Hr as [<-|Hr].
  - exists (name, qty, per_hour). split; [now left|]. now split.
  - destruct (IH _ _ Hr) as (x & Hx & H). exists x. split; [now right|exact H].
Qed.

Lemma tree_rows_names (l : list item_stat) :
  forall k, map row_name (tree_rows k l) = map stat_name l.
Proof.
  induction l as [|[[name qty] per_hour] l IH]; intros k; [reflexivity|].
  cbn [tree_rows map]. now rewrite IH.
Qed.

Lemma tree_rows_quantities (l : list item_stat) :
  Forall (fun x => 0 <= stat_qty x) l ->
  forall k,
    map (fun r => read_number (row_qty r)) (tree_rows k l) = map stat_qty l.
Proof.
  induction 1 as [|[[name qty] per_hour] l Hx Hl IH]; intros k; [reflexivity|].
  cbn [tree_rows map]. rewrite IH. f_equal.
  now apply format_thousands_read.
Qed.

Lemma tree_rows_tags (l : list item_stat) :
  forall k i r,
    nth_error (tree_rows k l) i = Some r ->
    tag r = (if Nat.even (k + i) then "evenrow" else "oddrow")%string.
Proof.
  induction l as [|[[name qty] per_hour] l IH]; intros k i r Hr.
  - destruct i; discriminate.
  - destruct i as [|i]; cbn [tree_rows nth_error] in Hr.
    + injection Hr as <-. now rewrite Nat.add_0_r.
    + apply IH in Hr. now rewrite Nat.add_succ_r.
Qed.

Lemma ranked_quantities (w : list LootEvent) (l : list item_stat) :
  StronglySorted (ranked_before w) l ->
  StronglySorted (fun x y => y <= x) (map stat_qty l).
Proof.
  induction 1 as [|a l Hs IH Ha]; cbn [map]; constructor; [exact IH|].
  rewrite Forall_map. eapply Forall_impl; [|exact Ha].
  intros b [Hlt|[Heq _]]; lia.
Qed.

Lemma total_quantity_nonneg (name : string) (w : list LootEvent) :
  Forall (fun e => 0 <= quantity e) w -> 0 <= total_quantity name w.
Proof.
  induction 1 as [|e w He Hw IH]; cbn [total_quantity]; [lia|].
  destruct (String.eqb _ _); lia.
Qed.

Lemma sum_yang_nonneg (w : list LootEvent) :
  Forall (fun e => 0 <= quantity e) w -> 0 <= sum_yang w.
Proof.
  induction w as [|e w IH] using rev_ind; intros H; [reflexivity|].
  apply Forall_app in H. destruct H as [Hw He]. inversion He; subst.
  rewrite sum_yang_snoc. specialize (IH Hw). destruct (is_yang e); lia.
Qed.

Lemma py_round_nonneg (x : Q) : (0 <= x)%Q -> 0 <= py_round x.
Proof.
  destruct x as [n d]. unfold Qle, py_round. cbn [Qnum Qden]. intros H.
  assert (Hfl : 0 <= n / Z.pos d) by (apply Z.div_pos; lia).
  destruct (_ <? _); [exact Hfl|]. destruct (_ <? _); [lia|].
  destruct (Z.even _); lia.
Qed.

Lemma rate_nonneg (q el : Z) (unit_ : positive) :
  0 <= q -> 1 <= el ->
  (0 <= inject_Z q / (inject_Z el / inject_Z (Z.pos unit_)))%Q.
Proof.
  intros Hq Hel. unfold Qdiv at 1. apply Qmult_le_0_compat.
  - unfold Qle. cbn. lia.
  - apply Qinv_le_0_compat, Qlt_le_weak, Qlt_shift_div_l.
    + reflexivity.
    + unfold Qlt. cbn. lia.
Qed.



(** *** The times of the interval label *)

Lemma decode_bytes_ascii (bs : list N) :
  Forall (fun b => (b < 128)%N) bs -> Utf8.decode_bytes bs = bs.
Proof.
  induction 1 as [|b bs Hb Hbs IH]; [reflexivity|].
  cbn [Utf8.decode_bytes]. apply N.ltb_lt in Hb. now rewrite Hb, IH.
Qed.

(** The code points of a text written in ASCII are its bytes. *)
Lemma chars_ascii (l : list ascii) :
  Forall (fun b => (b < 128)%N) (codes l) ->
  chars (string_of_list_ascii l) = codes l.
Proof.
  intros Hl. unfold chars, Utf8.decode.
  rewrite list_ascii_of_string_of_list_ascii. now apply decode_bytes_ascii.
Qed.

(** The two characters of a number below one hundred, as code points. *)
Lemma codes_two (x y : Z) :
  0 <= x <= 9 -> 0 <= y <= 9 ->
  codes (two (10 * x + y)) = [48 + Z.to_N x; 48 + Z.to_N y]%N.
Proof.
  intros Hx Hy.
  assert (Hall : forallb (fun k =>
                    match codes (two (Z.of_nat k)) with
                    | [a; b] => (a =? 48 + N.of_nat (k / 10))%N
                                && (b =? 48 + N.of_nat (k mod 10))%N
                    | _ => false
                    end) (seq 0 100) = true) by reflexivity.
  rewrite forallb_forall in Hall.
  specialize (Hall (Z.to_nat (10 * x + y))).
  rewrite Z2Nat.id in Hall by lia.
  assert (Hin : In (Z.to_nat (10 * x + y)) (seq 0 100)) by (apply in_seq; lia).
  apply Hall in Hin.
  destruct (codes (two (10 * x + y))) as [|a [|b [|? ?]]]; try discriminate.
  apply andb_prop in Hin. destruct Hin as [Ha Hb].
  apply N.eqb_eq in Ha, Hb. subst a b.
  repeat (apply (f_equal2 (@cons N)); [lia|]). reflexivity.
Qed.

Lemma ascii_digit_decimal (c : code) :
  is_decimal c = true -> ascii_digit c = (48 + Z.to_N (decimal_val c))%N.
Proof.
  unfold is_decimal, ascii_digit, decimal_val.
  now destruct (decimal c).
Qed.

(** The time of day of a parsed timestamp prints as it was written, each
    digit as the ASCII digit of its value. *)
Lemma strptime_time_text (D Tm : str) (d : datetime) :
  is_triple "/" D = true -> is_triple ":" Tm = true ->
  parse_datetime_from_log D Tm = Ok d ->
  chars (strftime_HMS d) = map ascii_digit Tm.
Proof.
  intros HD HT Hd. unfold parse_datetime_from_log in Hd.
  apply is_triple_inv in HD. destruct HD as (a & b & c & e & f & g & -> & _).
  apply is_triple_inv in HT.
  destruct HT as (h1 & h2 & i1 & i2 & s1 & s2 & -> & Hdig).
  apply strptime_fields in Hd.
  destruct Hd as (d1 & d2 & m1 & m2 & y1 & y2 & sp & h1' & h2' & i1' & i2'
                  & s1' & s2' & Heq & Hv & -> & _).
  cbn [app] in Heq. change (chars " ") with [32%N] in Heq. cbn [app] in Heq.
  injection Heq as <- <- <- <- <- <- <- <- <- <- <- <- <-.
  cbn [forallb] in Hdig. split_andb.
  unfold strftime_HMS. cbn [hour minute second].
  pose proof (decimal_val_range h1). pose proof (decimal_val_range h2).
  pose proof (decimal_val_range i1). pose proof (decimal_val_range i2).
  pose proof (decimal_val_range s1). pose proof (decimal_val_range s2).
  assert (Hc : codes (time_text (two_decimals h1 h2) (two_decimals i1 i2)
                        (two_decimals s1 s2))
               = map ascii_digit [h1; h2; 58%N; i1; i2; 58%N; s1; s2]).
  { unfold time_text, codes, two_decimals. rewrite !map_app.
    fold (codes (two (10 * decimal_val h1 + decimal_val h2))).
    fold (codes (two (10 * decimal_val i1 + decimal_val i2))).
    fold (codes (two (10 * decimal_val s1 + decimal_val s2))).
    rewrite !codes_two by assumption. cbn [map app list_ascii_of_string].
    change (ascii_digit 58%N) with 58%N.
    now rewrite !ascii_digit_decimal by assumption. }
  rewrite chars_ascii; [exact Hc|]. rewrite Hc. cbn [map].
  change (ascii_digit 58%N) with 58%N.
  rewrite !ascii_digit_decimal by assumption.
  repeat constructor; lia.
Qed.

Lemma parsed_time_text (line : string) (ev : LootEvent) :
  parse_log_line line = Ok (Some ev) ->
  exists Tm, logged_time line Tm /\
             chars (strftime_HMS (ts ev)) = map ascii_digit Tm.
Proof.
  intros Hparse. apply parse_log_line_event in Hparse.
  destruct Hparse as (before & D & Tm & Q & I & rest & Hline & Hrec & Hts & _).
  destruct Hrec as (HD & HT & _).
  exists Tm. split; [now exists before, D, Q, I, rest|].
  now apply (strptime_time_text D).
Qed.

(** *** A session seen from the window *)

(** The loop sends snapshots only. *)
Lemma loop_emits_stats (script : list (result string * Q)) :
  forall st,
    Forall is_stats (emitted st) ->
    match loop script st with
    | Stopped st' | Died _ st' => Forall is_stats (emitted st')
    | OpenFailed _ | OpenDied _ => False
    end.
Proof.
  induction script as [|[rd now_ts] script IH]; intros st Hst; cbn [loop];
    [exact Hst|].
  destruct (iteration rd now_ts st) as [st1|e] eqn:Hit; [|exact Hst].
  apply IH. apply iteration_emits in Hit.
  destruct Hit as [->|(s & ->)]; [exact Hst|].
  apply Forall_snoc; [exact Hst|now exists s].
Qed.

(** Handling snapshots one after the other leaves the display of the last
    one; the session state and the message boxes are not touched. *)
Lemma callbacks_last_wins (format_2f format_1f : Q -> string)
    (app : LootMonitorApp) (sent : list payload) :
  Forall is_stats sent ->
  let app' := ui_run format_2f format_1f app (map Callback sent) in
  worker app' = worker app /\ stop_event app' = stop_event app /\
  start_button app' = start_button app /\
  stop_button app' = stop_button app /\ dialogs app' = dialogs app /\
  display app'
  = match rev sent with
    | StatsMsg s :: _ =>
        display (update_stats format_2f format_1f (StatsMsg s) app)
    | _ => display app
    end.
Proof.
  cbv zeta. induction sent as [|p sent IH] using rev_ind; intros Hall.
  - now repeat split.
  - apply Forall_app in Hall. destruct Hall as [Hsent Hp].
    inversion Hp as [|? ? [s ->] _]; subst.
    destruct (IH Hsent) as (Hw & He & Hsb & Hst & Hd & Hdisp).
    unfold ui_run in *. rewrite map_app, fold_left_app, rev_app_distr.
    cbn [map fold_left rev List.app ui_step update_stats].
    set (prev := fold_left (ui_step format_2f format_1f)
                           (map Callback sent) app) in *.
    cbn [set_display worker stop_event start_button stop_button dialogs
         display].
    repeat (split; [assumption|]).
    rewrite Hdisp. now destruct (rev sent) as [|[s0|msg] tl].
Qed.

(** X15. The window shows the last snapshot. When the file opens, every
    payload of the session is a snapshot, and once the window has handled
    them in order its labels and table are those that [update_stats] makes
    from the last one alone (nothing of an earlier snapshot stays, and an
    untouched display stays when none was sent); the worker in place, the
    buttons and the message boxes are as before. *)
Theorem window_shows_last_snapshot (format_2f format_1f : Q -> string)
    (w : LiveMonitorWorker) (start_time : Q)
    (script : list (result string * Q)) (app : LootMonitorApp) :
  match run w (Ok tt) start_time script with
  | Stopped st | Died _ st =>
      let app' := ui_run format_2f format_1f app (map Callback (emitted st)) in
      worker app' = worker app /\ stop_event app' = stop_event app /\
      start_button app' = start_button app /\
      stop_button app' = stop_button app /\ dialogs app' = dialogs app /\
      display app'
      = match rev (emitted st) with
        | StatsMsg s :: _ =>
            display (update_stats format_2f format_1f (StatsMsg s) app)
        | _ => display app
        end
  | OpenFailed _ | OpenDied _ => False
  end.
Proof.
  unfold run.
  pose proof (loop_emits_stats script (mkTail w start_time [] 0)
                (Forall_nil _)) as H.
  destruct (loop script _); try contradiction;
    now apply callbacks_last_wins.
Qed.
